(** * Piano lights controller: note decoding, note-to-relay mapping and
      relay tracking

    A shallow embedding of the two controller programs of the repository,
    [piano_lights.py] (pygame, polled MIDI input) and [piano_lights_rtmidi.py]
    (rtmidi, MIDI input delivered through a callback), followed by the
    properties of the decoding / tracking core.

    Python integers are [Z]; the dict [note_to_relay] is a [gmap Z Z]; the set
    [active_notes] is a [gset Z]; a MIDI message is a [list Z].  Calls into the
    GPIO and MIDI libraries are recorded, in order, in a trace of effects. *)

From stdpp Require Import gmap list fin_maps.
From Stdlib Require Import ZArith Lia.

Local Open Scope Z_scope.

(** ** Data model *)

(** The two programs.  They share every method of the core except the
    message intake and the table of note ranges. *)
Inductive variant : Set :=
  | Pygame     (* src/piano_lights.py *)
  | Rtmidi.    (* src/piano_lights_rtmidi.py *)

(** [GPIO.LOW] and [GPIO.HIGH]. *)
Inductive level : Set := LOW | HIGH.

(** Calls into the hardware libraries, as the trace records them.
    - [GPIO_init pin]: [GPIO.setup(pin, GPIO.OUT); GPIO.output(pin, GPIO.HIGH)]
      of [setup_gpio];
    - [Relay relay_channel state pin lvl]: the guarded body of [set_relay],
      that is [GPIO.output(pin, lvl)] with [pin = relay_pins[relay_channel]]
      and the console line [Relay {relay_channel + 1} ON/OFF];
    - [GPIO_cleanup]: [GPIO.cleanup()];
    - [MIDI_close]: [midi_input.close()] / [midi_input.close_port()];
    - [MIDI_quit]: [pygame.midi.quit()]. *)
Inductive effect : Set :=
  | GPIO_init (pin : Z)
  | Relay (relay_channel : Z) (state : bool) (pin : Z) (lvl : level)
  | GPIO_cleanup
  | MIDI_close
  | MIDI_quit.

(** Python exceptions the modelled code can raise. *)
Inductive exn : Set :=
  | IndexError        (* list index out of range *)
  | AttributeError    (* method call on [None] *)
  | NoMidiInput.      (* [Exception("No MIDI input device found!")] and its
                         rtmidi counterpart, raised by [setup_midi] *)

(** A MIDI event as the libraries deliver it: the message bytes and a time
    stamp (pygame) or delta time (rtmidi).  The second component is never
    inspected by the code. *)
Definition midi_event : Type := list Z * Z.

(** The attributes of a [PianoLightsController] object, and the trace of
    hardware effects performed so far.  [midi_input] is [None] before
    [setup_midi]; afterwards it holds the opened device, modelled by the
    events it has buffered and not yet handed out. *)
Record controller : Type := Controller {
  relay_pins : list Z;
  note_to_relay : gmap Z Z;
  active_notes : gset Z;
  midi_input : option (list midi_event);
  running : bool;
  trace : list effect
}.

Definition with_note_to_relay (m : gmap Z Z) (self : controller) : controller :=
  Controller (relay_pins self) m (active_notes self) (midi_input self)
             (running self) (trace self).

Definition with_active_notes (s : gset Z) (self : controller) : controller :=
  Controller (relay_pins self) (note_to_relay self) s (midi_input self)
             (running self) (trace self).

Definition with_midi_input (i : option (list midi_event)) (self : controller)
  : controller :=
  Controller (relay_pins self) (note_to_relay self) (active_notes self) i
             (running self) (trace self).

Definition with_running (b : bool) (self : controller) : controller :=
  Controller (relay_pins self) (note_to_relay self) (active_notes self)
             (midi_input self) b (trace self).

Definition perform (e : effect) (self : controller) : controller :=
  Controller (relay_pins self) (note_to_relay self) (active_notes self)
             (midi_input self) (running self) (trace self ++ [e]).

(** What a method call results in: it returns, or it raises; either way the
    object is left in some state. *)
Inductive outcome : Type :=
  | Returns (self : controller)
  | Raises (e : exn) (self : controller).

Definition state_of (o : outcome) : controller :=
  match o with Returns s => s | Raises _ s => s end.

Definition raised (o : outcome) : option exn :=
  match o with Returns _ => None | Raises e _ => Some e end.

(** Sequencing of method calls: an exception skips what follows. *)
Definition and_then (o : outcome) (k : controller → outcome) : outcome :=
  match o with
  | Returns s => k s
  | Raises e s => Raises e s
  end.

(** The channel emissions [(relay_channel, state)] of a trace, in order. *)
Definition emission_of (e : effect) : option (Z * bool) :=
  match e with
  | Relay c b _ _ => Some (c, b)
  | _ => None
  end.

Definition emissions (tr : list effect) : list (Z * bool) :=
  omap emission_of tr.

(** ** Note-to-relay mapping *)

(** Python's [range(start, stop)]. *)
Definition range (start stop : Z) : list Z := seqZ start (stop - start).

(** Python's [enumerate], counting from [i]. *)
Fixpoint enumerate_from {A : Type} (i : Z) (l : list A) : list (Z * A) :=
  match l with
  | [] => []
  | x :: l' => (i, x) :: enumerate_from (i + 1) l'
  end.

Definition enumerate {A : Type} (l : list A) : list (Z * A) :=
  enumerate_from 0 l.

(** The table [octave_ranges] of [setup_note_mapping], in each program. *)
Definition octave_ranges (v : variant) : list (Z * Z) :=
  match v with
  | Pygame =>
      [ (21, 34); (35, 47); (48, 59); (60, 71);
        (72, 83); (84, 95); (96, 107); (108, 108) ]
  | Rtmidi =>
      [ (21, 47); (48, 53); (54, 59); (60, 65);
        (66, 71); (72, 77); (78, 83); (84, 108) ]
  end.

(** The inner loop
    [for note in range(start_note, end_note + 1):
         self.note_to_relay[note] = relay_channel]. *)
Definition assign_range (m : gmap Z Z) (entry : Z * (Z * Z)) : gmap Z Z :=
  let '(relay_channel, (start_note, end_note)) := entry in
  foldl (λ m note, <[note := relay_channel]> m) m
        (range start_note (end_note + 1)).

(** The outer loop over [enumerate(octave_ranges)], from the empty dict. *)
Definition load_ranges (ranges : list (Z * Z)) : gmap Z Z :=
  foldl assign_range ∅ (enumerate ranges).

(** [setup_note_mapping], with its local table [octave_ranges] taken as an
    argument; [__init__] below passes the table of the program. *)
Definition setup_note_mapping (octave_ranges : list (Z * Z)) (self : controller)
  : controller :=
  with_note_to_relay (load_ranges octave_ranges) self.

(** The index of the last range of the table that contains [note], counting
    from [i]: what the loops above leave in the dict (see
    [load_ranges_lookup]). *)
Fixpoint last_range_from (i : Z) (ranges : list (Z * Z)) (note : Z) : option Z :=
  match ranges with
  | [] => None
  | (start_note, end_note) :: rest =>
      match last_range_from (i + 1) rest note with
      | Some c => Some c
      | None =>
          if bool_decide (start_note ≤ note ≤ end_note) then Some i else None
      end
  end.

(** A table of ranges is a partition of the 88-key span 21..108 into 8
    channels: eight entries, every key of the span in some range, no key in
    two ranges, no range reaching outside the span. *)
Definition in_range (r : Z * Z) (note : Z) : Prop := r.1 ≤ note ≤ r.2.

Record valid_partition (ranges : list (Z * Z)) : Prop := {
  partition_count : length ranges = 8%nat;
  partition_covers :
    ∀ note, 21 ≤ note ≤ 108 → ∃ r, r ∈ ranges ∧ in_range r note;
  partition_disjoint :
    ∀ (i j : nat) ri rj note,
      ranges !! i = Some ri → ranges !! j = Some rj →
      in_range ri note → in_range rj note → i = j;
  partition_within :
    ∀ r note, r ∈ ranges → in_range r note → 21 ≤ note ≤ 108
}.

(** [channelOf]: the lookup [note_to_relay.get(note)]. *)
Definition channelOf (self : controller) (note : Z) : option Z :=
  note_to_relay self !! note.

(** ** Relay output *)

Definition setup_gpio (self : controller) : controller :=
  foldl (λ s pin, perform (GPIO_init pin) s) self (relay_pins self).

Definition set_relay (relay_channel : Z) (state : bool) (self : controller)
  : controller :=
  if bool_decide (0 ≤ relay_channel < Z.of_nat (length (relay_pins self))) then
    match relay_pins self !! Z.to_nat relay_channel with
    | Some pin =>
        perform (Relay relay_channel state pin (if state then LOW else HIGH)) self
    | None => self   (* not reached: the index was just checked *)
    end
  else self.

(** ** Note tracking *)

Definition handle_note_on (note velocity : Z) (self : controller) : controller :=
  if bool_decide (is_Some (note_to_relay self !! note)) && bool_decide (velocity > 0)
  then
    match note_to_relay self !! note with
    | Some relay_channel =>
        set_relay relay_channel true
          (with_active_notes ({[note]} ∪ active_notes self) self)
    | None => self   (* not reached: membership was just checked *)
    end
  else self.

Definition handle_note_off (note : Z) (self : controller) : controller :=
  if bool_decide (is_Some (note_to_relay self !! note))
     && bool_decide (note ∈ active_notes self)
  then
    match note_to_relay self !! note with
    | Some relay_channel =>
        set_relay relay_channel false
          (with_active_notes (active_notes self ∖ {[note]}) self)
    | None => self   (* not reached: membership was just checked *)
    end
  else self.

(** ** Message intake *)

(** The branch on the status byte that both programs share. *)
Definition dispatch (status note velocity : Z) (self : controller) : controller :=
  if bool_decide (0x80 ≤ status ≤ 0x8F) then
    handle_note_off note self
  else if bool_decide (0x90 ≤ status ≤ 0x9F) then
    if bool_decide (velocity = 0) then handle_note_off note self
    else handle_note_on note velocity self
  else self.

(** Body of the [for event in midi_events] loop of [process_midi_events]
    (pygame).  [data[0]] and [data[1]] raise [IndexError] on a message that
    is too short; [data[2]] is replaced by [0] when absent. *)
Definition process_event (event : midi_event) (self : controller) : outcome :=
  let data := event.1 in
  match data !! 0%nat with
  | None => Raises IndexError self
  | Some status =>
      match data !! 1%nat with
      | None => Raises IndexError self
      | Some note =>
          let velocity :=
            if bool_decide (2 < length data)%nat then default 0 (data !! 2%nat)
            else 0 in
          Returns (dispatch status note velocity self)
      end
  end.

Fixpoint for_each_event (midi_events : list midi_event) (self : controller)
  : outcome :=
  match midi_events with
  | [] => Returns self
  | event :: rest => and_then (process_event event self) (for_each_event rest)
  end.

(** [process_midi_events] (pygame): [poll()] tells whether the device has
    buffered events, [read(10)] hands out at most ten of them, oldest first. *)
Definition process_midi_events (self : controller) : outcome :=
  match midi_input self with
  | None => Raises AttributeError self
  | Some buffered =>
      if bool_decide (buffered ≠ []) then
        let midi_events := take 10 buffered in
        for_each_event midi_events
          (with_midi_input (Some (drop 10 buffered)) self)
      else Returns self
  end.

(** [midi_callback] (rtmidi): called by the library once per message. *)
Definition midi_callback (event : midi_event) (self : controller) : controller :=
  let message := event.1 in
  if bool_decide (3 ≤ length message)%nat then
    match message !! 0%nat, message !! 1%nat, message !! 2%nat with
    | Some status, Some note, Some velocity => dispatch status note velocity self
    | _, _, _ => self   (* not reached: the length was just checked *)
    end
  else self.

(** ** Construction and shutdown *)

(** [setup_midi].  Device discovery is left to the libraries: [found] is the
    input device it ends with, given by the events that device has buffered,
    or [None] when there is no input device.  The rtmidi program creates its
    [MidiIn] object before it looks for ports. *)
Definition setup_midi (v : variant) (found : option (list midi_event))
    (self : controller) : outcome :=
  match v with
  | Pygame =>
      match found with
      | None => Raises NoMidiInput self
      | Some buffered => Returns (with_midi_input (Some buffered) self)
      end
  | Rtmidi =>
      let self := with_midi_input (Some []) self in
      match found with
      | None => Raises NoMidiInput self
      | Some _ => Returns self
      end
  end.

(** [__init__], with the table of ranges that [setup_note_mapping] hardwires
    taken as an argument. *)
Definition construct (ranges : list (Z * Z)) (v : variant)
    (found : option (list midi_event)) : outcome :=
  let self := Controller [18; 19; 20; 21; 22; 23; 24; 25] ∅ ∅ None false [] in
  let self := setup_note_mapping ranges self in
  let self := with_active_notes ∅ self in
  let self := with_midi_input None self in
  let self := with_running false self in
  let self := setup_gpio self in
  setup_midi v found self.

Definition __init__ (v : variant) (found : option (list midi_event)) : outcome :=
  construct (octave_ranges v) v found.

(** [cleanup]: all relays off, the GPIO released, the MIDI input closed. *)
Definition cleanup (v : variant) (self : controller) : controller :=
  let self := with_running false self in
  let self :=
    foldl (λ s i, set_relay i false s) self
          (range 0 (Z.of_nat (length (relay_pins self)))) in
  let self := perform GPIO_cleanup self in
  let self :=
    match midi_input self with
    | Some _ => perform MIDI_close self
    | None => self
    end in
  match v with
  | Pygame => perform MIDI_quit self
  | Rtmidi => self
  end.

(** ** States and runs of the program *)

(** What [__init__] fixes for the lifetime of the object: the relay pins and
    the note-to-relay table.  No method changes either afterwards. *)
Definition configured (v : variant) (self : controller) : Prop :=
  relay_pins self = [18; 19; 20; 21; 22; 23; 24; 25]
  ∧ note_to_relay self = load_ranges (octave_ranges v).

(** Every tracked note is a key of the note-to-relay table. *)
Definition tracked (self : controller) : Prop :=
  ∀ note, note ∈ active_notes self → is_Some (note_to_relay self !! note).

(** The event-processing operations, and the arrival of new events in the
    buffer of the polled device. *)
Inductive operation : Type :=
  | Note_on (note velocity : Z)
  | Note_off (note : Z)
  | Poll
  | Callback (event : midi_event)
  | Arrive (events : list midi_event).

Definition run_operation (self : controller) (op : operation) : controller :=
  match op with
  | Note_on note velocity => handle_note_on note velocity self
  | Note_off note => handle_note_off note self
  | Poll => state_of (process_midi_events self)
  | Callback event => midi_callback event self
  | Arrive events =>
      with_midi_input ((λ buffered, buffered ++ events) <$> midi_input self) self
  end.

Definition run (ops : list operation) (self : controller) : controller :=
  foldl run_operation self ops.

(** The push delivery of a sequence of events: one callback per event. *)
Definition deliver (events : list midi_event) (self : controller) : controller :=
  foldl (λ s event, midi_callback event s) self events.

(** [self'] comes after [self] in a run: the table and the pins are the
    same, tracked notes stay mapped, and the trace has grown by effects
    whose channel emissions all are channels of the table. *)
Definition advances (self self' : controller) : Prop :=
  note_to_relay self' = note_to_relay self
  ∧ relay_pins self' = relay_pins self
  ∧ (tracked self → tracked self')
  ∧ ∃ new, trace self' = trace self ++ new
           ∧ ∀ c b, (c, b) ∈ emissions new →
                    ∃ note, channelOf self note = Some c.

(** The pygame table with its first range stretched over the second one:
    eight entries, the keys 35..40 in two of them. *)
Definition overlapping_ranges : list (Z * Z) :=
  [ (21, 40); (35, 47); (48, 59); (60, 71);
    (72, 83); (84, 95); (96, 107); (108, 108) ].

(** ** Sample states *)

(** A controller just constructed, with an input device that has nothing
    buffered. *)
Definition fresh (v : variant) : controller := state_of (__init__ v (Some [])).

(** Keys 21 and 34, both on relay 0 of the pygame table, are held. *)
Definition holding_21_34 : controller :=
  handle_note_on 34 90 (handle_note_on 21 100 (fresh Pygame)).

(** Keys 21, 60 and 90, on three different relays, are held. *)
Definition holding_21_60_90 : controller :=
  handle_note_on 90 64 (handle_note_on 60 64 (handle_note_on 21 64 (fresh Pygame))).

(** ** Device discovery *)

(** The tuple [pygame.midi.get_device_info(i)] returns:
    [(interf, name, input, output, opened)], the two texts as bytes. *)
Record device_info : Type := Device_info {
  dev_interf : list Z;
  dev_name : list Z;
  dev_input : Z;
  dev_output : Z;
  dev_opened : Z
}.

(** The search loop of [setup_midi] (pygame), counting from [i]:
    [for i in range(get_count()): info = get_device_info(i);
     if info[2]: midi_input_id = i; break]. *)
Fixpoint first_input_from (i : Z) (infos : list device_info) : option Z :=
  match infos with
  | [] => None
  | info :: rest =>
      if bool_decide (dev_input info ≠ 0) then Some i
      else first_input_from (i + 1) rest
  end.

(** How [setup_midi] (pygame) ends: the device is opened, or
    [info[1].decode()] raises [UnicodeDecodeError], or the method raises
    [Exception("No MIDI input device found!")]. *)
Inductive midi_setup : Type :=
  | Midi_ready (self : controller)
  | Midi_undecodable (self : controller)
  | Midi_missing (self : controller).

(** [setup_midi] (pygame) on a system whose devices are [devices], each given
    by its info tuple and by the events it has buffered.  First the listing
    loop, which decodes the name of every device; then the search loop; then
    [pygame.midi.Input(midi_input_id)] and the line that prints the name of
    the device opened, decoding it once more.  Whether a name decodes (as
    UTF-8, the default of [bytes.decode]) is the argument [decodes]; the
    calls into the MIDI library are taken to succeed. *)
Definition setup_midi_pygame (decodes : list Z → bool)
    (devices : list (device_info * list midi_event)) (self : controller)
  : midi_setup :=
  if forallb (λ info, decodes (dev_name info)) (fst <$> devices) then
    match first_input_from 0 (fst <$> devices) with
    | None => Midi_missing self
    | Some midi_input_id =>
        match devices !! Z.to_nat midi_input_id with
        | Some (info, buffered) =>
            let self := with_midi_input (Some buffered) self in
            if decodes (dev_name info) then Midi_ready self
            else Midi_undecodable self
        | None => Midi_missing self   (* not reached: the index was found *)
        end
    end
  else Midi_undecodable self.

(** The search loop of [setup_midi] (rtmidi), counting from [i].  The test
    ['casio' in port.lower() or 'ctk' in port.lower()] is the argument
    [is_casio]. *)
Fixpoint first_casio_from {port : Type} (is_casio : port → bool) (i : Z)
    (available_ports : list port) : option Z :=
  match available_ports with
  | [] => None
  | p :: rest =>
      if is_casio p then Some i else first_casio_from is_casio (i + 1) rest
  end.

(** The port [setup_midi] (rtmidi) opens: [None] stands for the exception
    raised when there is no port at all. *)
Definition select_port {port : Type} (is_casio : port → bool)
    (available_ports : list port) : option Z :=
  match available_ports with
  | [] => None
  | _ :: _ =>
      match first_casio_from is_casio 0 available_ports with
      | Some casio_port => Some casio_port
      | None => Some 0
      end
  end.

(** ** The main loop (pygame) *)

(** How the [while self.running] loop of [run] is left. *)
Inductive loop_exit : Type :=
  | Interrupted          (* [KeyboardInterrupt] *)
  | Failed (e : exn)     (* an exception of [process_midi_events] *)
  | Finished.            (* [self.running] found false *)

(** The loop of [run] in [piano_lights.py].  The world outside is a
    schedule: one entry per turn of the loop, holding the events that reach
    the device before that turn's poll; when the schedule is used up the
    user presses Ctrl+C during the sleep.  A Ctrl+C that lands inside a poll
    is not part of this model. *)
Fixpoint poll_loop (schedule : list (list midi_event)) (self : controller)
  : loop_exit * controller :=
  match schedule with
  | [] => if running self then (Interrupted, self) else (Finished, self)
  | arrivals :: rest =>
      if running self then
        match process_midi_events (run_operation self (Arrive arrivals)) with
        | Returns self' => poll_loop rest self'
        | Raises e self' => (Failed e, self')
        end
      else (Finished, self)
  end.

(** [run] of [piano_lights.py]: the loop, [KeyboardInterrupt] caught, and
    [cleanup] in the [finally] clause; any other exception goes on to the
    caller once [cleanup] is done. *)
Definition controller_run (schedule : list (list midi_event)) (self : controller)
  : outcome :=
  let self := with_running true self in
  let '(how, self) := poll_loop schedule self in
  let self := cleanup Pygame self in
  match how with
  | Failed e => Raises e self
  | Interrupted | Finished => Returns self
  end.

(** [main] of [piano_lights.py]: construction and [run], and on any
    exception [GPIO.cleanup(); pygame.midi.quit()].  The result is the state
    the program ends in, with the trace of all hardware calls made. *)
Definition main (found : option (list midi_event))
    (schedule : list (list midi_event)) : controller :=
  match __init__ Pygame found with
  | Raises _ self => perform MIDI_quit (perform GPIO_cleanup self)
  | Returns piano =>
      match controller_run schedule piano with
      | Returns self => self
      | Raises _ self => perform MIDI_quit (perform GPIO_cleanup self)
      end
  end.

(** [k] calls of [process_midi_events] in a row, as the loop of [run] makes
    them when nothing arrives in between. *)
Fixpoint polls (k : nat) (self : controller) : outcome :=
  match k with
  | O => Returns self
  | S k' => and_then (process_midi_events self) (polls k')
  end.

(** ** Pin levels *)

(** The level an effect writes to [pin], if it writes one. *)
Definition level_written (pin : Z) (e : effect) : option level :=
  match e with
  | GPIO_init p => if bool_decide (p = pin) then Some HIGH else None
  | Relay _ _ p lvl => if bool_decide (p = pin) then Some lvl else None
  | GPIO_cleanup | MIDI_close | MIDI_quit => None
  end.

(** The level last written to [pin] along a trace. *)
Definition last_level (tr : list effect) (pin : Z) : option level :=
  last (omap (level_written pin) tr).

(** The pygame table with a ninth range, for the keys 109..120. *)
Definition nine_ranges : list (Z * Z) := octave_ranges Pygame ++ [(109, 120)].

(** * Properties *)

(** ** The trace *)

Lemma emissions_app (tr1 tr2 : list effect) :
  emissions (tr1 ++ tr2) = emissions tr1 ++ emissions tr2.
Proof. apply omap_app. Qed.

Lemma trace_perform (e : effect) (self : controller) :
  trace (perform e self) = trace self ++ [e].
Proof. reflexivity. Qed.

(** ** The note-to-relay table *)

Lemma range_elem (start stop note : Z) :
  note ∈ range start stop ↔ start ≤ note < stop.
Proof. unfold range. rewrite elem_of_seqZ. lia. Qed.

Lemma insert_all_lookup (c : Z) (notes : list Z) (m : gmap Z Z) (note : Z) :
  foldl (λ m k, <[k := c]> m) m notes !! note
  = if decide (note ∈ notes) then Some c else m !! note.
Proof.
  revert m. induction notes as [|k notes IH]; intros m; cbn [foldl].
  - rewrite decide_False; [done | apply not_elem_of_nil].
  - rewrite IH. destruct (decide (note ∈ notes)) as [Hin|Hnin].
    + rewrite decide_True; [done | by right].
    + destruct (decide (k = note)) as [->|Hne].
      * rewrite lookup_insert_eq, decide_True; [done | by left].
      * rewrite lookup_insert_ne by done.
        rewrite decide_False; [done|].
        intros [?|?]%elem_of_cons; congruence.
Qed.

Lemma assign_range_lookup (m : gmap Z Z) (c start_note end_note note : Z) :
  assign_range m (c, (start_note, end_note)) !! note
  = if bool_decide (start_note ≤ note ≤ end_note) then Some c else m !! note.
Proof.
  unfold assign_range. rewrite insert_all_lookup.
  destruct (decide (note ∈ range start_note (end_note + 1))) as [H|H];
    rewrite range_elem in H.
  - rewrite bool_decide_eq_true_2; [done | lia].
  - rewrite bool_decide_eq_false_2; [done | lia].
Qed.

Lemma load_ranges_from_lookup (ranges : list (Z * Z)) (i : Z) (m : gmap Z Z)
    (note : Z) :
  foldl assign_range m (enumerate_from i ranges) !! note
  = match last_range_from i ranges note with
    | Some c => Some c
    | None => m !! note
    end.
Proof.
  revert i m. induction ranges as [|[lo hi] ranges IH]; intros i m;
    cbn [enumerate_from foldl last_range_from].
  - done.
  - rewrite IH. destruct (last_range_from (i + 1) ranges note); [done|].
    rewrite assign_range_lookup. by case_bool_decide.
Qed.

(** The dict built by [setup_note_mapping]'s loops maps a note to the index
    of the last range that contains it, and holds no other key. *)
Lemma load_ranges_lookup (ranges : list (Z * Z)) (note : Z) :
  load_ranges ranges !! note = last_range_from 0 ranges note.
Proof.
  unfold load_ranges, enumerate. rewrite load_ranges_from_lookup.
  destruct (last_range_from 0 ranges note); [done | apply lookup_empty].
Qed.

Lemma last_range_from_bounds (ranges : list (Z * Z)) (i note c : Z) :
  last_range_from i ranges note = Some c →
  i ≤ c < i + Z.of_nat (length ranges).
Proof.
  revert i. induction ranges as [|[lo hi] ranges IH]; intros i; simpl.
  - done.
  - destruct (last_range_from (i + 1) ranges note) as [c'|] eqn:E.
    + intros [= <-]. apply IH in E. lia.
    + case_bool_decide; [intros [= <-]; lia | done].
Qed.

Lemma last_range_from_in (ranges : list (Z * Z)) (i note c : Z) :
  last_range_from i ranges note = Some c →
  ∃ r, ranges !! Z.to_nat (c - i) = Some r ∧ in_range r note.
Proof.
  revert i. induction ranges as [|[lo hi] ranges IH]; intros i; simpl.
  - done.
  - destruct (last_range_from (i + 1) ranges note) as [c'|] eqn:E.
    + intros [= <-]. pose proof (last_range_from_bounds _ _ _ _ E) as Hb.
      apply IH in E as (r & Hr & Hin). exists r. split; [|done].
      replace (Z.to_nat (c' - i)) with (S (Z.to_nat (c' - (i + 1)))) by lia.
      done.
    + case_bool_decide as H; [|done]. intros [= <-].
      exists (lo, hi). rewrite Z.sub_diag. done.
Qed.

Lemma last_range_from_none (ranges : list (Z * Z)) (i note : Z) :
  last_range_from i ranges note = None ↔ ∀ r, r ∈ ranges → ¬ in_range r note.
Proof.
  revert i. induction ranges as [|[lo hi] ranges IH]; intros i; simpl.
  - split; [|done]. intros _ r Hr. by apply elem_of_nil in Hr.
  - destruct (last_range_from (i + 1) ranges note) as [c'|] eqn:E.
    + split; [done|]. intros H. exfalso.
      assert (last_range_from (i + 1) ranges note = None) as E'.
      { apply IH. intros r Hr. apply H. by right. }
      congruence.
    + pose proof (proj1 (IH _) E) as E'. case_bool_decide as Hin.
      * split; [done|]. intros H. exfalso. apply (H (lo, hi)); [by left | done].
      * split; [|done]. intros _ r [->|Hr]%elem_of_cons; [done | by apply E'].
Qed.

(** The note-to-relay table of either program, written out. *)
Lemma octave_ranges_lookup (v : variant) (note : Z) :
  load_ranges (octave_ranges v) !! note =
  match v with
  | Pygame =>
      if bool_decide (note < 21) then None
      else if bool_decide (note ≤ 34) then Some 0
      else if bool_decide (note ≤ 47) then Some 1
      else if bool_decide (note ≤ 59) then Some 2
      else if bool_decide (note ≤ 71) then Some 3
      else if bool_decide (note ≤ 83) then Some 4
      else if bool_decide (note ≤ 95) then Some 5
      else if bool_decide (note ≤ 107) then Some 6
      else if bool_decide (note ≤ 108) then Some 7
      else None
  | Rtmidi =>
      if bool_decide (note < 21) then None
      else if bool_decide (note ≤ 47) then Some 0
      else if bool_decide (note ≤ 53) then Some 1
      else if bool_decide (note ≤ 59) then Some 2
      else if bool_decide (note ≤ 65) then Some 3
      else if bool_decide (note ≤ 71) then Some 4
      else if bool_decide (note ≤ 77) then Some 5
      else if bool_decide (note ≤ 83) then Some 6
      else if bool_decide (note ≤ 108) then Some 7
      else None
  end.
Proof.
  rewrite load_ranges_lookup.
  destruct v; simpl; repeat case_bool_decide; try done; lia.
Qed.

Lemma octave_ranges_channel (v : variant) (note c : Z) :
  load_ranges (octave_ranges v) !! note = Some c → 0 ≤ c ≤ 7 ∧ 21 ≤ note ≤ 108.
Proof.
  rewrite octave_ranges_lookup.
  destruct v; repeat case_bool_decide; intros [= <-] || done; lia.
Qed.

Lemma octave_ranges_mapped (v : variant) (note : Z) :
  21 ≤ note ≤ 108 → is_Some (load_ranges (octave_ranges v) !! note).
Proof.
  intros H. rewrite octave_ranges_lookup.
  destruct v; repeat case_bool_decide; by eauto || lia.
Qed.

Lemma octave_ranges_unmapped (v : variant) (note : Z) :
  ¬ 21 ≤ note ≤ 108 → load_ranges (octave_ranges v) !! note = None.
Proof.
  intros H. rewrite octave_ranges_lookup.
  destruct v; repeat case_bool_decide; done || lia.
Qed.

Lemma octave_ranges_valid (v : variant) : valid_partition (octave_ranges v).
Proof.
  split.
  - by destruct v.
  - intros note H.
    destruct (octave_ranges_mapped v note H) as [c Hc].
    rewrite load_ranges_lookup in Hc.
    apply last_range_from_in in Hc as (r & Hr & Hin).
    exists r. split; [|done]. by eapply list_elem_of_lookup_2.
  - intros i j [lo1 hi1] [lo2 hi2] note Hi Hj [H1 H2] [H3 H4]. simpl in *.
    destruct v; simpl in Hi, Hj;
      repeat (destruct i as [|i]; simpl in Hi; try done);
      repeat (destruct j as [|j]; simpl in Hj; try done);
      simplify_eq; try done; lia.
  - intros [lo hi] note Hr [H1 H2]. simpl in *.
    destruct v; simpl in Hr; set_unfold in Hr;
      repeat (destruct Hr as [Hr|Hr]; [simplify_eq; lia|]); done.
Qed.

(** ** Relay output *)

Lemma configured_with_active_notes (v : variant) (s : gset Z) (self : controller) :
  configured v self → configured v (with_active_notes s self).
Proof. by intros [??]. Qed.

Lemma configured_perform (v : variant) (e : effect) (self : controller) :
  configured v self → configured v (perform e self).
Proof. by intros [??]. Qed.

Lemma configured_channel (v : variant) (self : controller) (note c : Z) :
  configured v self → channelOf self note = Some c →
  0 ≤ c ≤ 7 ∧ 21 ≤ note ≤ 108.
Proof.
  intros [_ Hmap]. unfold channelOf. rewrite Hmap.
  apply octave_ranges_channel.
Qed.

(** On a configured controller [set_relay] writes the pin of every channel
    from 0 to 7. *)
Lemma set_relay_configured (v : variant) (self : controller) (c : Z) (b : bool) :
  configured v self → 0 ≤ c ≤ 7 →
  ∃ pin, relay_pins self !! Z.to_nat c = Some pin
         ∧ set_relay c b self
           = perform (Relay c b pin (if b then LOW else HIGH)) self.
Proof.
  intros [Hpins _] Hc. unfold set_relay. rewrite Hpins.
  rewrite bool_decide_eq_true_2 by (simpl; lia).
  destruct (lookup_lt_is_Some_2 [18; 19; 20; 21; 22; 23; 24; 25] (Z.to_nat c))
    as [pin Hpin]; [simpl; lia|].
  exists pin. by rewrite Hpin.
Qed.

Lemma set_relay_active_notes (c : Z) (b : bool) (self : controller) :
  active_notes (set_relay c b self) = active_notes self.
Proof.
  unfold set_relay. case_bool_decide; [|done].
  by destruct (relay_pins self !! Z.to_nat c).
Qed.

Lemma set_relay_note_to_relay (c : Z) (b : bool) (self : controller) :
  note_to_relay (set_relay c b self) = note_to_relay self.
Proof.
  unfold set_relay. case_bool_decide; [|done].
  by destruct (relay_pins self !! Z.to_nat c).
Qed.

Lemma set_relay_relay_pins (c : Z) (b : bool) (self : controller) :
  relay_pins (set_relay c b self) = relay_pins self.
Proof.
  unfold set_relay. case_bool_decide; [|done].
  by destruct (relay_pins self !! Z.to_nat c).
Qed.

Lemma set_relay_midi_input (c : Z) (b : bool) (self : controller) :
  midi_input (set_relay c b self) = midi_input self.
Proof.
  unfold set_relay. case_bool_decide; [|done].
  by destruct (relay_pins self !! Z.to_nat c).
Qed.

(** ** Note tracking *)

(** [handle_note_off] on a note that is mapped and held. *)
Lemma handle_note_off_held (self : controller) (note c : Z) :
  channelOf self note = Some c → note ∈ active_notes self →
  handle_note_off note self
  = set_relay c false (with_active_notes (active_notes self ∖ {[note]}) self).
Proof.
  unfold channelOf, handle_note_off. intros Hc Hin. rewrite Hc.
  rewrite !bool_decide_eq_true_2; eauto.
Qed.

(** [handle_note_off] on any other note. *)
Lemma handle_note_off_skip (self : controller) (note : Z) :
  channelOf self note = None ∨ note ∉ active_notes self →
  handle_note_off note self = self.
Proof.
  unfold channelOf, handle_note_off. intros [Hc|Hnin].
  - rewrite Hc. rewrite bool_decide_eq_false_2; [done | by intros [??]].
  - rewrite (bool_decide_eq_false_2 (note ∈ _)) by done.
    by rewrite andb_false_r.
Qed.

(** [handle_note_on] on a mapped note struck with a positive velocity. *)
Lemma handle_note_on_mapped (self : controller) (note velocity c : Z) :
  channelOf self note = Some c → velocity > 0 →
  handle_note_on note velocity self
  = set_relay c true (with_active_notes ({[note]} ∪ active_notes self) self).
Proof.
  unfold channelOf, handle_note_on. intros Hc Hv. rewrite Hc.
  rewrite !bool_decide_eq_true_2; eauto.
Qed.

(** [handle_note_on] on any other note or velocity. *)
Lemma handle_note_on_skip (self : controller) (note velocity : Z) :
  channelOf self note = None ∨ ¬ velocity > 0 →
  handle_note_on note velocity self = self.
Proof.
  unfold channelOf, handle_note_on. intros [Hc|Hv].
  - rewrite Hc. rewrite bool_decide_eq_false_2; [done | by intros [??]].
  - rewrite (bool_decide_eq_false_2 (velocity > 0)) by done.
    by rewrite andb_false_r.
Qed.

(** C1.  On a configured controller, releasing a note [note] that is mapped to
    channel [c] and held writes the relay of [c] off: the trace grows by
    exactly that one write, so the emission is [(c, false)], and [note]
    leaves [active_notes].  Any other held note [m] of the same channel [c]
    stays in [active_notes]: the write does not look at what else is held. *)
Theorem note_off_emits_despite_shared_channel
    (v : variant) (self : controller) (note c : Z) :
  configured v self →
  channelOf self note = Some c →
  note ∈ active_notes self →
  let self' := handle_note_off note self in
  (∃ pin, relay_pins self !! Z.to_nat c = Some pin
          ∧ trace self' = trace self ++ [Relay c false pin HIGH])
  ∧ emissions (trace self') = emissions (trace self) ++ [(c, false)]
  ∧ active_notes self' = active_notes self ∖ {[note]}
  ∧ ∀ m, m ≠ note → channelOf self m = Some c → m ∈ active_notes self →
         m ∈ active_notes self'.
Proof.
  intros Hconf Hc Hin self'. subst self'.
  rewrite (handle_note_off_held _ _ _ Hc Hin).
  destruct (configured_channel _ _ _ _ Hconf Hc) as [Hrange _].
  destruct (set_relay_configured v
              (with_active_notes (active_notes self ∖ {[note]}) self) c false)
    as (pin & Hpin & ->); [by apply configured_with_active_notes | exact Hrange |].
  repeat split.
  - by exists pin.
  - by rewrite trace_perform, emissions_app.
  - intros m Hne _ Hm. simpl.
    apply elem_of_difference. split; [exact Hm | by rewrite elem_of_singleton].
Qed.

Lemma note_off_emits_despite_shared_channel_witness :
  emissions (trace (handle_note_off 21 holding_21_34))
  = emissions (trace holding_21_34) ++ [(0, false)]
  ∧ 34 ∈ active_notes (handle_note_off 21 holding_21_34).
Proof.
  assert (configured Pygame holding_21_34) as Hconf
    by (split; vm_compute; reflexivity).
  assert (channelOf holding_21_34 21 = Some 0) as Hc
    by (vm_compute; reflexivity).
  assert (channelOf holding_21_34 34 = Some 0) as Hm
    by (vm_compute; reflexivity).
  assert (21 ∈ active_notes holding_21_34) as Hin
    by (apply (bool_decide_unpack _); vm_compute; exact I).
  assert (34 ∈ active_notes holding_21_34) as Hin'
    by (apply (bool_decide_unpack _); vm_compute; exact I).
  destruct (note_off_emits_despite_shared_channel
              Pygame holding_21_34 21 0 Hconf Hc Hin) as (_ & He & _ & Hkeep).
  split; [exact He | apply (Hkeep 34); [lia | exact Hm | exact Hin']].
Defined.

(** C5.  Releasing a note that is not held does nothing at all: the controller
    is returned as it was, so nothing is emitted and [active_notes] is
    unchanged. *)
Theorem note_off_not_held_is_noop (self : controller) (note : Z) :
  note ∉ active_notes self →
  handle_note_off note self = self
  ∧ emissions (trace (handle_note_off note self)) = emissions (trace self)
  ∧ active_notes (handle_note_off note self) = active_notes self.
Proof.
  intros Hnin. rewrite handle_note_off_skip by (by right). done.
Qed.

Lemma note_off_not_held_is_noop_witness :
  handle_note_off 60 holding_21_34 = holding_21_34
  ∧ emissions (trace (handle_note_off 60 holding_21_34))
    = emissions (trace holding_21_34)
  ∧ active_notes (handle_note_off 60 holding_21_34) = active_notes holding_21_34.
Proof.
  apply (note_off_not_held_is_noop holding_21_34 60).
  apply (bool_decide_unpack _). vm_compute. exact I.
Defined.

(** C6.  On a configured controller, striking a mapped note [note] of channel
    [c] with a positive velocity puts [note] into [active_notes] and writes
    the relay of [c] on: the trace grows by exactly that one write, so the
    emission is [(c, true)].  When [note] was held already the same write is
    made again and [active_notes] is unchanged. *)
Theorem note_on_inserts_and_emits
    (v : variant) (self : controller) (note velocity c : Z) :
  configured v self →
  channelOf self note = Some c →
  velocity > 0 →
  let self' := handle_note_on note velocity self in
  (∃ pin, relay_pins self !! Z.to_nat c = Some pin
          ∧ trace self' = trace self ++ [Relay c true pin LOW])
  ∧ emissions (trace self') = emissions (trace self) ++ [(c, true)]
  ∧ active_notes self' = {[note]} ∪ active_notes self
  ∧ note ∈ active_notes self'
  ∧ (note ∈ active_notes self → active_notes self' = active_notes self).
Proof.
  intros Hconf Hc Hv self'. subst self'.
  rewrite (handle_note_on_mapped _ _ _ _ Hc Hv).
  destruct (configured_channel _ _ _ _ Hconf Hc) as [Hrange _].
  destruct (set_relay_configured v
              (with_active_notes ({[note]} ∪ active_notes self) self) c true)
    as (pin & Hpin & ->); [by apply configured_with_active_notes | exact Hrange |].
  repeat split.
  - by exists pin.
  - by rewrite trace_perform, emissions_app.
  - simpl. apply elem_of_union_l. by rewrite elem_of_singleton.
  - intros Hin. simpl. apply subseteq_union_1_L.
    intros x Hx. apply elem_of_singleton in Hx. by subst x.
Qed.

Lemma note_on_inserts_and_emits_witness :
  emissions (trace (handle_note_on 21 100 holding_21_34))
  = emissions (trace holding_21_34) ++ [(0, true)]
  ∧ active_notes (handle_note_on 21 100 holding_21_34)
    = active_notes holding_21_34.
Proof.
  assert (configured Pygame holding_21_34) as Hconf
    by (split; vm_compute; reflexivity).
  assert (channelOf holding_21_34 21 = Some 0) as Hc
    by (vm_compute; reflexivity).
  assert (100 > 0) as Hv by lia.
  assert (21 ∈ active_notes holding_21_34) as Hin
    by (apply (bool_decide_unpack _); vm_compute; exact I).
  destruct (note_on_inserts_and_emits
              Pygame holding_21_34 21 100 0 Hconf Hc Hv) as (_ & He & _ & _ & Hsame).
  split; [exact He | exact (Hsame Hin)].
Defined.

(** ** Message intake *)

Lemma process_event_full (status note velocity : Z) (more : list Z) (t : Z)
    (self : controller) :
  process_event (status :: note :: velocity :: more, t) self
  = Returns (dispatch status note velocity self).
Proof.
  unfold process_event. cbn [fst lookup list_lookup default length].
  rewrite bool_decide_eq_true_2 by (simpl; lia). done.
Qed.

Lemma midi_callback_full (status note velocity : Z) (more : list Z) (t : Z)
    (self : controller) :
  midi_callback (status :: note :: velocity :: more, t) self
  = dispatch status note velocity self.
Proof.
  unfold midi_callback. cbn [fst lookup list_lookup length].
  rewrite bool_decide_eq_true_2 by (simpl; lia). done.
Qed.

Lemma midi_callback_short (event : midi_event) (self : controller) :
  (length event.1 < 3)%nat → midi_callback event self = self.
Proof.
  intros H. unfold midi_callback. rewrite bool_decide_eq_false_2; [done | lia].
Qed.

Lemma dispatch_note_off (status note velocity : Z) (self : controller) :
  0x80 ≤ status ≤ 0x8F →
  dispatch status note velocity self = handle_note_off note self.
Proof. intros H. unfold dispatch. by rewrite bool_decide_eq_true_2. Qed.

Lemma dispatch_note_on_zero (status note : Z) (self : controller) :
  0x90 ≤ status ≤ 0x9F →
  dispatch status note 0 self = handle_note_off note self.
Proof.
  intros H. unfold dispatch.
  rewrite bool_decide_eq_false_2 by lia.
  rewrite bool_decide_eq_true_2 by done.
  by rewrite bool_decide_eq_true_2.
Qed.

Lemma dispatch_other (status note velocity : Z) (self : controller) :
  ¬ 0x80 ≤ status ≤ 0x8F → ¬ 0x90 ≤ status ≤ 0x9F →
  dispatch status note velocity self = self.
Proof.
  intros H1 H2. unfold dispatch. by rewrite !bool_decide_eq_false_2.
Qed.

(** C4.  In either program a three-byte Note-On message for [note] with
    velocity 0 is processed exactly as a Note-Off message for [note]
    (whatever its release velocity): both end in the same controller, the
    one [handle_note_off note] gives, hence the same emission and the same
    [active_notes]; the polled path raises no exception on either. *)
Theorem zero_velocity_note_on_is_note_off
    (self : controller) (status_on status_off note velocity_off t t' : Z) :
  0x90 ≤ status_on ≤ 0x9F →
  0x80 ≤ status_off ≤ 0x8F →
  process_event ([status_on; note; 0], t) self
  = process_event ([status_off; note; velocity_off], t') self
  ∧ process_event ([status_on; note; 0], t) self
    = Returns (handle_note_off note self)
  ∧ midi_callback ([status_on; note; 0], t) self
    = midi_callback ([status_off; note; velocity_off], t') self
  ∧ midi_callback ([status_on; note; 0], t) self = handle_note_off note self.
Proof.
  intros Hon Hoff.
  rewrite !process_event_full, !midi_callback_full.
  rewrite (dispatch_note_on_zero _ _ _ Hon).
  rewrite (dispatch_note_off _ _ _ _ Hoff). done.
Qed.

Lemma zero_velocity_note_on_is_note_off_witness :
  process_event ([0x90; 21; 0], 0) holding_21_34
  = process_event ([0x80; 21; 64], 5) holding_21_34
  ∧ process_event ([0x90; 21; 0], 0) holding_21_34
    = Returns (handle_note_off 21 holding_21_34)
  ∧ midi_callback ([0x90; 21; 0], 0) holding_21_34
    = midi_callback ([0x80; 21; 64], 5) holding_21_34
  ∧ midi_callback ([0x90; 21; 0], 0) holding_21_34
    = handle_note_off 21 holding_21_34.
Proof.
  apply (zero_velocity_note_on_is_note_off holding_21_34 0x90 0x80 21 64 0 5);
    lia.
Defined.

(** C8.  In either program a three-byte message whose status byte is neither
    in 0x80..0x8F nor in 0x90..0x9F leaves the controller as it was: no
    handler is called, nothing is emitted, [active_notes] is unchanged, and
    the polled path returns without raising. *)
Theorem other_status_is_dropped
    (self : controller) (status data1 data2 t : Z) :
  ¬ 0x80 ≤ status ≤ 0x8F →
  ¬ 0x90 ≤ status ≤ 0x9F →
  process_event ([status; data1; data2], t) self = Returns self
  ∧ raised (process_event ([status; data1; data2], t) self) = None
  ∧ midi_callback ([status; data1; data2], t) self = self
  ∧ for_each_event [([status; data1; data2], t)] self = Returns self.
Proof.
  intros H1 H2. cbn [for_each_event].
  rewrite process_event_full, midi_callback_full.
  rewrite (dispatch_other _ _ _ _ H1 H2). done.
Qed.

Lemma other_status_is_dropped_witness :
  process_event ([0xB0; 64; 127], 0) holding_21_34 = Returns holding_21_34
  ∧ raised (process_event ([0xB0; 64; 127], 0) holding_21_34) = None
  ∧ midi_callback ([0xB0; 64; 127], 0) holding_21_34 = holding_21_34
  ∧ for_each_event [([0xB0; 64; 127], 0)] holding_21_34 = Returns holding_21_34.
Proof.
  apply (other_status_is_dropped holding_21_34 0xB0 64 127 0); lia.
Defined.

(** ** Shutdown *)

Lemma cleanup_trace (v : variant) (self : controller) :
  configured v self →
  trace (cleanup v self)
  = trace self
    ++ [ Relay 0 false 18 HIGH; Relay 1 false 19 HIGH; Relay 2 false 20 HIGH;
         Relay 3 false 21 HIGH; Relay 4 false 22 HIGH; Relay 5 false 23 HIGH;
         Relay 6 false 24 HIGH; Relay 7 false 25 HIGH ]
    ++ [GPIO_cleanup]
    ++ (match midi_input self with Some _ => [MIDI_close] | None => [] end)
    ++ (match v with Pygame => [MIDI_quit] | Rtmidi => [] end).
Proof.
  intros [Hpins _]. destruct self as [pins m s mi r tr].
  simpl in Hpins. subst pins.
  destruct v, mi; cbv -[app]; rewrite <- ?app_assoc; reflexivity.
Qed.

Lemma cleanup_active_notes (v : variant) (self : controller) :
  active_notes (cleanup v self) = active_notes self.
Proof.
  unfold cleanup.
  assert (∀ l s, active_notes (foldl (λ s i, set_relay i false s) s l)
                 = active_notes s) as Hloop.
  { induction l as [|i l IH]; intros s; simpl; [done|].
    by rewrite IH, set_relay_active_notes. }
  assert (∀ l s, midi_input (foldl (λ s i, set_relay i false s) s l)
                 = midi_input s) as Hloop'.
  { induction l as [|i l IH]; intros s; simpl; [done|].
    by rewrite IH, set_relay_midi_input. }
  destruct v; simpl; rewrite Hloop'; simpl;
    destruct (midi_input self); simpl; by rewrite Hloop.
Qed.

Lemma cleanup_running (v : variant) (self : controller) :
  running (cleanup v self) = false.
Proof.
  unfold cleanup.
  assert (∀ l s, running (foldl (λ s i, set_relay i false s) s l) = running s)
    as Hloop.
  { induction l as [|i l IH]; intros s; simpl; [done|].
    rewrite IH. unfold set_relay. case_bool_decide; [|done].
    by destruct (relay_pins s !! Z.to_nat i). }
  set (loop := foldl _ _ _).
  assert (running loop = false) as Hr by (unfold loop; by rewrite Hloop).
  simpl. destruct (midi_input loop), v; simpl; exact Hr.
Qed.

(** C2, as the code has it.  On a configured controller [cleanup] writes the
    relays of the channels 0, 1, ..., 7 off, in this order and whatever
    [active_notes] holds, then releases the GPIO and closes the MIDI input;
    no other channel emission is made.  It clears [running] and leaves
    [active_notes] as it found it: the set is not emptied. *)
Theorem cleanup_switches_all_relays_off (v : variant) (self : controller) :
  configured v self →
  let self' := cleanup v self in
  (∃ rest,
     trace self'
     = trace self
       ++ [ Relay 0 false 18 HIGH; Relay 1 false 19 HIGH; Relay 2 false 20 HIGH;
            Relay 3 false 21 HIGH; Relay 4 false 22 HIGH; Relay 5 false 23 HIGH;
            Relay 6 false 24 HIGH; Relay 7 false 25 HIGH ]
       ++ rest
     ∧ emissions rest = [])
  ∧ emissions (trace self')
    = emissions (trace self)
      ++ [ (0, false); (1, false); (2, false); (3, false);
           (4, false); (5, false); (6, false); (7, false) ]
  ∧ active_notes self' = active_notes self
  ∧ running self' = false.
Proof.
  intros Hconf self'. subst self'.
  rewrite (cleanup_trace _ _ Hconf), cleanup_active_notes.
  repeat split.
  - eexists. split; [reflexivity|]. by destruct (midi_input self), v.
  - rewrite emissions_app. f_equal. by destruct (midi_input self), v.
  - apply cleanup_running.
Qed.

Lemma cleanup_switches_all_relays_off_witness :
  emissions (trace (cleanup Pygame holding_21_60_90))
  = emissions (trace holding_21_60_90)
    ++ [ (0, false); (1, false); (2, false); (3, false);
         (4, false); (5, false); (6, false); (7, false) ]
  ∧ active_notes (cleanup Pygame holding_21_60_90)
    = active_notes holding_21_60_90.
Proof.
  assert (configured Pygame holding_21_60_90) as Hconf
    by (split; vm_compute; reflexivity).
  destruct (cleanup_switches_all_relays_off Pygame holding_21_60_90 Hconf)
    as (_ & He & Ha & _).
  split; [exact He | exact Ha].
Defined.

(** C2 as stated fails on its own example: with the keys 21, 60 and 90 held,
    on three different relays, [cleanup] emits the eight writes but the
    three notes are still in [active_notes] afterwards. *)
Lemma cleanup_keeps_active_notes_counterexample :
  configured Pygame holding_21_60_90
  ∧ channelOf holding_21_60_90 21 = Some 0
  ∧ channelOf holding_21_60_90 60 = Some 3
  ∧ channelOf holding_21_60_90 90 = Some 5
  ∧ emissions (trace (cleanup Pygame holding_21_60_90))
    = [ (0, true); (3, true); (5, true);
        (0, false); (1, false); (2, false); (3, false);
        (4, false); (5, false); (6, false); (7, false) ]
  ∧ active_notes (cleanup Pygame holding_21_60_90) = {[21; 60; 90]}
  ∧ active_notes (cleanup Pygame holding_21_60_90) ≠ ∅.
Proof.
  repeat split; try (vm_compute; reflexivity).
  intros H.
  assert (21 ∈ active_notes (cleanup Pygame holding_21_60_90)) as Hin
    by (apply (bool_decide_unpack _); vm_compute; exact I).
  rewrite H in Hin. by apply not_elem_of_empty in Hin.
Qed.

(** ** The two intake paths *)

Lemma dispatch_with_midi_input (i : option (list midi_event))
    (status note velocity : Z) (self : controller) :
  dispatch status note velocity (with_midi_input i self)
  = with_midi_input i (dispatch status note velocity self).
Proof.
  unfold dispatch, handle_note_on, handle_note_off, set_relay. simpl.
  repeat case_bool_decide; simpl; try done;
    destruct (note_to_relay self !! note) as [c|]; simpl; try done;
    repeat case_bool_decide; simpl; try done;
    by destruct (relay_pins self !! Z.to_nat c).
Qed.

Lemma midi_callback_with_midi_input (i : option (list midi_event))
    (event : midi_event) (self : controller) :
  midi_callback event (with_midi_input i self)
  = with_midi_input i (midi_callback event self).
Proof.
  unfold midi_callback. case_bool_decide; [|done].
  destruct (event.1 !! 0%nat), (event.1 !! 1%nat), (event.1 !! 2%nat);
    try done. apply dispatch_with_midi_input.
Qed.

Lemma deliver_with_midi_input (i : option (list midi_event))
    (events : list midi_event) (self : controller) :
  deliver events (with_midi_input i self)
  = with_midi_input i (deliver events self).
Proof.
  revert self. induction events as [|event events IH]; intros self; [done|].
  unfold deliver in *. cbn [foldl].
  by rewrite midi_callback_with_midi_input, IH.
Qed.

Lemma process_event_is_callback (event : midi_event) (self : controller) :
  (3 ≤ length event.1)%nat →
  process_event event self = Returns (midi_callback event self).
Proof.
  destruct event as [[|status [|note [|velocity more]]] t]; simpl;
    intros H; try lia.
  by rewrite process_event_full, midi_callback_full.
Qed.

Lemma for_each_event_is_deliver (events : list midi_event) (self : controller) :
  Forall (λ event : midi_event, (3 ≤ length event.1)%nat) events →
  for_each_event events self = Returns (deliver events self).
Proof.
  intros Hall. revert self.
  induction Hall as [|event events Hlen _ IH]; intros self; [done|].
  cbn [for_each_event]. rewrite (process_event_is_callback _ _ Hlen).
  cbn [and_then]. apply IH.
Qed.

Lemma process_event_two_bytes (status note t : Z) (self : controller) :
  process_event ([status; note], t) self
  = Returns (dispatch status note 0 self).
Proof. reflexivity. Qed.

Lemma process_event_too_short (data : list Z) (t : Z) (self : controller) :
  (length data < 2)%nat → process_event (data, t) self = Raises IndexError self.
Proof.
  destruct data as [|status [|note more]]; simpl; intros H; done || lia.
Qed.

(** C3, as the code has it.  On messages of three bytes or more the polled
    path and the callback path do the same to the same controller: the loop
    of [process_midi_events] over a batch returns, without raising, the
    controller that one [midi_callback] per message gives, so the trace
    (hence the emissions) and [active_notes] are equal; [process_midi_events]
    itself does so for the first ten buffered events and keeps the others
    buffered.  On shorter messages the two paths differ: [midi_callback]
    ignores them, while the polled path handles a two-byte message as one
    with velocity 0. *)
Theorem intake_paths_agree_on_full_messages
    (self : controller) (events : list midi_event) :
  Forall (λ event : midi_event, (3 ≤ length event.1)%nat) events →
  for_each_event events self = Returns (deliver events self)
  ∧ (let polled := process_midi_events (with_midi_input (Some events) self) in
     let pushed := deliver (take 10 events) self in
     polled = Returns (with_midi_input (Some (drop 10 events)) pushed)
     ∧ raised polled = None
     ∧ trace (state_of polled) = trace pushed
     ∧ emissions (trace (state_of polled)) = emissions (trace pushed)
     ∧ active_notes (state_of polled) = active_notes pushed)
  ∧ (∀ event : midi_event,
       (length event.1 < 3)%nat → midi_callback event self = self)
  ∧ (∀ status note t,
       process_event ([status; note], t) self
       = Returns (dispatch status note 0 self)).
Proof.
  intros Hall. split; [by apply for_each_event_is_deliver|].
  split; [|split].
  - assert (process_midi_events (with_midi_input (Some events) self)
            = Returns (with_midi_input (Some (drop 10 events))
                                       (deliver (take 10 events) self))) as ->.
    { unfold process_midi_events. cbn [midi_input with_midi_input].
      case_bool_decide as Hemp.
      - rewrite for_each_event_is_deliver by (by apply Forall_take).
        by rewrite !deliver_with_midi_input.
      - by subst events. }
    done.
  - intros event. apply midi_callback_short.
  - intros status note t. apply process_event_two_bytes.
Qed.

Lemma intake_paths_agree_on_full_messages_witness :
  for_each_event [([0x90; 60; 64], 0); ([0x80; 60; 0], 7)] (fresh Pygame)
  = Returns (deliver [([0x90; 60; 64], 0); ([0x80; 60; 0], 7)] (fresh Pygame)).
Proof.
  refine (proj1 (intake_paths_agree_on_full_messages (fresh Pygame)
                   [([0x90; 60; 64], 0); ([0x80; 60; 0], 7)] _)).
  repeat apply Forall_cons_2; [simpl; lia | simpl; lia | apply Forall_nil_2].
Defined.

(** C3 as stated fails on a two-byte message: with the keys 21, 60 and 90
    held, feeding the Note-Off message [0x80, 60] to the polled path writes
    relay 3 off and releases note 60, while the callback path ignores the
    message. *)
Lemma intake_paths_differ_counterexample :
  let self := holding_21_60_90 in
  let events := [([0x80; 60], 0)] in
  let polled := state_of (process_midi_events (with_midi_input (Some events) self)) in
  let pushed := deliver events self in
  emissions (trace polled) = emissions (trace self) ++ [(3, false)]
  ∧ emissions (trace pushed) = emissions (trace self)
  ∧ emissions (trace polled) ≠ emissions (trace pushed)
  ∧ active_notes polled = {[21; 90]}
  ∧ active_notes pushed = {[21; 60; 90]}
  ∧ active_notes polled ≠ active_notes pushed.
Proof.
  cbv zeta.
  assert (60 ∈ active_notes (deliver [([0x80; 60], 0)] holding_21_60_90)) as Hin
    by (apply (bool_decide_unpack _); vm_compute; exact I).
  assert (60 ∉ active_notes
            (state_of (process_midi_events
               (with_midi_input (Some [([0x80; 60], 0)]) holding_21_60_90))))
    as Hnin by (apply (bool_decide_unpack _); vm_compute; exact I).
  repeat split; try (vm_compute; reflexivity).
  - vm_compute. discriminate.
  - intros H. rewrite H in Hnin. by apply Hnin.
Qed.

(** ** The partition of the keyboard *)

(** C7.  On a controller configured with the table of either program: the
    table is a partition of 21..108 (eight ranges, every key of the span in
    one of them, no key in two, none outside); every note of 21..108 has a
    channel, which lies in 0..7 and is the index of a range that contains
    the note; a note outside 21..108 has no channel, and no handler and no
    message that refers to it changes the controller, so nothing is
    emitted. *)
Theorem partition_covers_keyboard (v : variant) (self : controller) (note : Z) :
  configured v self →
  valid_partition (octave_ranges v)
  ∧ (21 ≤ note ≤ 108 →
     ∃ c, channelOf self note = Some c ∧ 0 ≤ c ≤ 7
          ∧ ∃ r, octave_ranges v !! Z.to_nat c = Some r ∧ in_range r note)
  ∧ (¬ 21 ≤ note ≤ 108 →
     channelOf self note = None
     ∧ (∀ velocity, handle_note_on note velocity self = self)
     ∧ handle_note_off note self = self
     ∧ (∀ status velocity, dispatch status note velocity self = self)
     ∧ (∀ status velocity more t,
          process_event (status :: note :: velocity :: more, t) self
          = Returns self
          ∧ midi_callback (status :: note :: velocity :: more, t) self = self)
     ∧ (∀ status t, process_event ([status; note], t) self = Returns self)).
Proof.
  intros Hconf. split; [apply octave_ranges_valid|]. split.
  - intros Hnote. pose proof Hconf as [_ Hmap].
    destruct (octave_ranges_mapped v note Hnote) as [c Hc].
    exists c. unfold channelOf. rewrite Hmap. split; [exact Hc|].
    split; [by apply (octave_ranges_channel v note)|].
    rewrite load_ranges_lookup in Hc.
    apply last_range_from_in in Hc. by rewrite Z.sub_0_r in Hc.
  - intros Hnote.
    assert (channelOf self note = None) as Hnone.
    { destruct Hconf as [_ Hmap]. unfold channelOf. rewrite Hmap.
      by apply octave_ranges_unmapped. }
    assert (∀ velocity, handle_note_on note velocity self = self) as Hon
      by (intros; apply handle_note_on_skip; by left).
    assert (handle_note_off note self = self) as Hoff
      by (apply handle_note_off_skip; by left).
    assert (∀ status velocity, dispatch status note velocity self = self) as Hd.
    { intros status velocity. unfold dispatch.
      repeat case_bool_decide; by rewrite ?Hon, ?Hoff. }
    repeat split; try done.
    + by rewrite process_event_full, Hd.
    + by rewrite midi_callback_full, Hd.
    + intros status t. by rewrite process_event_two_bytes, Hd.
Qed.

Lemma partition_covers_keyboard_witness :
  (∃ c, channelOf (fresh Rtmidi) 60 = Some c ∧ 0 ≤ c ≤ 7
        ∧ ∃ r, octave_ranges Rtmidi !! Z.to_nat c = Some r ∧ in_range r 60)
  ∧ channelOf (fresh Rtmidi) 109 = None
  ∧ handle_note_off 109 (fresh Rtmidi) = fresh Rtmidi.
Proof.
  assert (configured Rtmidi (fresh Rtmidi)) as Hconf
    by (split; vm_compute; reflexivity).
  destruct (partition_covers_keyboard Rtmidi (fresh Rtmidi) 60 Hconf)
    as (_ & Hin & _).
  destruct (partition_covers_keyboard Rtmidi (fresh Rtmidi) 109 Hconf)
    as (_ & _ & Hout).
  assert (21 ≤ 60 ≤ 108) as H60 by lia.
  assert (¬ 21 ≤ 109 ≤ 108) as H109 by lia.
  destruct (Hout H109) as (Hnone & _ & Hoff & _).
  split; [exact (Hin H60) | split; [exact Hnone | exact Hoff]].
Defined.

(** ** Construction *)

Lemma setup_gpio_loop_fields (pins : list Z) (self : controller) :
  let self' := foldl (λ s pin, perform (GPIO_init pin) s) self pins in
  note_to_relay self' = note_to_relay self
  ∧ active_notes self' = active_notes self
  ∧ relay_pins self' = relay_pins self
  ∧ emissions (trace self') = emissions (trace self).
Proof.
  revert self. induction pins as [|pin pins IH]; intros self; [done|].
  cbn [foldl]. destruct (IH (perform (GPIO_init pin) self)) as (-> & -> & -> & ->).
  repeat split. rewrite trace_perform, emissions_app. apply app_nil_r.
Qed.

Lemma setup_gpio_fields (self : controller) :
  note_to_relay (setup_gpio self) = note_to_relay self
  ∧ active_notes (setup_gpio self) = active_notes self
  ∧ relay_pins (setup_gpio self) = relay_pins self
  ∧ emissions (trace (setup_gpio self)) = emissions (trace self).
Proof. apply setup_gpio_loop_fields. Qed.

Lemma construct_returns (ranges : list (Z * Z)) (v : variant)
    (buffered : list midi_event) :
  ∃ self, construct ranges v (Some buffered) = Returns self
          ∧ note_to_relay self = load_ranges ranges
          ∧ relay_pins self = [18; 19; 20; 21; 22; 23; 24; 25]
          ∧ active_notes self = ∅
          ∧ emissions (trace self) = [].
Proof.
  unfold construct.
  set (self0 := with_running _ _).
  destruct (setup_gpio_fields self0) as (Hm & Ha & Hp & He).
  set (self1 := setup_gpio self0) in *. clearbody self1.
  subst self0. simpl in Hm, Ha, Hp, He.
  destruct v; cbn [setup_midi]; eexists; (split; [reflexivity|]); simpl;
    by rewrite Hm, Ha, Hp, He.
Qed.



(** ** The invariant of the tracker *)

Lemma advances_refl (self : controller) : advances self self.
Proof.
  repeat split; try done. exists []. split; [by rewrite app_nil_r|].
  intros c b H. by apply elem_of_nil in H.
Qed.

Lemma advances_trans (s1 s2 s3 : controller) :
  advances s1 s2 → advances s2 s3 → advances s1 s3.
Proof.
  intros (Hm1 & Hp1 & Ht1 & new1 & Htr1 & He1)
         (Hm2 & Hp2 & Ht2 & new2 & Htr2 & He2).
  split; [congruence|]. split; [congruence|]. split; [tauto|].
  exists (new1 ++ new2). split; [by rewrite Htr2, Htr1, app_assoc|].
  intros c b. rewrite emissions_app, elem_of_app. intros [H|H].
  - by apply (He1 c b).
  - destruct (He2 c b H) as [note Hn]. exists note.
    unfold channelOf in *. by rewrite <- Hm1.
Qed.

Lemma advances_with_midi_input (i : option (list midi_event)) (self : controller) :
  advances self (with_midi_input i self).
Proof.
  repeat split; try done. exists []. split; [by rewrite app_nil_r|].
  intros c b H. by apply elem_of_nil in H.
Qed.

(** A note enters or leaves [active_notes] and its relay is written. *)
Lemma advances_set_relay (self : controller) (note c : Z) (b : bool) (s : gset Z) :
  channelOf self note = Some c →
  (tracked self → ∀ n, n ∈ s → is_Some (note_to_relay self !! n)) →
  advances self (set_relay c b (with_active_notes s self)).
Proof.
  intros Hc Hs. unfold advances.
  rewrite set_relay_note_to_relay, set_relay_relay_pins.
  split; [done|]. split; [done|]. split.
  - intros Ht n. rewrite set_relay_active_notes, set_relay_note_to_relay.
    by apply Hs.
  - unfold set_relay. case_bool_decide.
    + destruct (relay_pins _ !! Z.to_nat c) as [pin|].
      * eexists. split; [reflexivity|]. intros c' b' H'.
        apply list_elem_of_singleton in H'. simplify_eq. by exists note.
      * exists []. split; [by rewrite app_nil_r|].
        intros c' b' H'. by apply elem_of_nil in H'.
    + exists []. split; [by rewrite app_nil_r|].
      intros c' b' H'. by apply elem_of_nil in H'.
Qed.

Lemma advances_handle_note_on (note velocity : Z) (self : controller) :
  advances self (handle_note_on note velocity self).
Proof.
  destruct (channelOf self note) as [c|] eqn:Hc;
    [destruct (decide (velocity > 0)) as [Hv|Hv]|].
  - rewrite (handle_note_on_mapped _ _ _ _ Hc Hv).
    apply (advances_set_relay _ note); [done|].
    intros Ht n [Hn|Hn]%elem_of_union; [|by apply Ht].
    apply elem_of_singleton in Hn. subst n. by exists c.
  - rewrite handle_note_on_skip by (by right). apply advances_refl.
  - rewrite handle_note_on_skip by (by left). apply advances_refl.
Qed.

Lemma advances_handle_note_off (note : Z) (self : controller) :
  advances self (handle_note_off note self).
Proof.
  destruct (channelOf self note) as [c|] eqn:Hc;
    [destruct (decide (note ∈ active_notes self)) as [Hin|Hin]|].
  - rewrite (handle_note_off_held _ _ _ Hc Hin).
    apply (advances_set_relay _ note); [done|].
    intros Ht n [Hn _]%elem_of_difference. by apply Ht.
  - rewrite handle_note_off_skip by (by right). apply advances_refl.
  - rewrite handle_note_off_skip by (by left). apply advances_refl.
Qed.

Lemma advances_dispatch (status note velocity : Z) (self : controller) :
  advances self (dispatch status note velocity self).
Proof.
  unfold dispatch. repeat case_bool_decide;
    auto using advances_refl, advances_handle_note_on, advances_handle_note_off.
Qed.

Lemma advances_midi_callback (event : midi_event) (self : controller) :
  advances self (midi_callback event self).
Proof.
  unfold midi_callback. case_bool_decide; [|apply advances_refl].
  destruct (event.1 !! 0%nat), (event.1 !! 1%nat), (event.1 !! 2%nat);
    auto using advances_refl, advances_dispatch.
Qed.

Lemma advances_process_event (event : midi_event) (self : controller) :
  advances self (state_of (process_event event self)).
Proof.
  unfold process_event.
  destruct (event.1 !! 0%nat); [|apply advances_refl].
  destruct (event.1 !! 1%nat); [|apply advances_refl].
  apply advances_dispatch.
Qed.

Lemma advances_for_each_event (events : list midi_event) (self : controller) :
  advances self (state_of (for_each_event events self)).
Proof.
  revert self. induction events as [|event events IH]; intros self.
  - apply advances_refl.
  - cbn [for_each_event].
    pose proof (advances_process_event event self) as H.
    destruct (process_event event self) as [s|e s]; cbn [and_then state_of] in *.
    + eapply advances_trans; [exact H | apply IH].
    + exact H.
Qed.

Lemma advances_process_midi_events (self : controller) :
  advances self (state_of (process_midi_events self)).
Proof.
  unfold process_midi_events.
  destruct (midi_input self) as [buffered|]; [|apply advances_refl].
  case_bool_decide; [|apply advances_refl].
  eapply advances_trans;
    [apply advances_with_midi_input | apply advances_for_each_event].
Qed.

Lemma advances_run_operation (self : controller) (op : operation) :
  advances self (run_operation self op).
Proof.
  destruct op; simpl;
    auto using advances_handle_note_on, advances_handle_note_off,
               advances_process_midi_events, advances_midi_callback,
               advances_with_midi_input.
Qed.

Lemma advances_run (ops : list operation) (self : controller) :
  advances self (run ops self).
Proof.
  revert self. induction ops as [|op ops IH]; intros self.
  - apply advances_refl.
  - unfold run in *. cbn [foldl].
    eapply advances_trans; [apply advances_run_operation | apply IH].
Qed.

(** C10.  Every event-processing operation, from any controller, keeps
    "each member of [active_notes] is a key of [note_to_relay]".  So, on a
    configured controller whose [active_notes] is empty, after any sequence
    of operations (handlers called directly, polls of the buffered input,
    callbacks on messages of any shape, also when a poll raises) every
    member of [active_notes] is a key of the table, and every channel
    emitted along the way is the channel of a mapped note and lies in
    0..7. *)
Theorem active_notes_stay_mapped
    (v : variant) (self : controller) (ops : list operation) :
  configured v self →
  active_notes self = ∅ →
  (∀ s op, tracked s → tracked (run_operation s op))
  ∧ configured v (run ops self)
  ∧ tracked (run ops self)
  ∧ ∃ new, trace (run ops self) = trace self ++ new
           ∧ ∀ c b, (c, b) ∈ emissions new →
                    0 ≤ c ≤ 7 ∧ ∃ note, channelOf (run ops self) note = Some c.
Proof.
  intros Hconf Hempty.
  split; [intros s op; by apply advances_run_operation|].
  destruct (advances_run ops self) as (Hm & Hp & Ht & new & Htr & He).
  assert (configured v (run ops self)) as Hconf'.
  { destruct Hconf as [Hpins Hmap]. split; congruence. }
  split; [exact Hconf'|]. split.
  - apply Ht. intros note. rewrite Hempty. intros H.
    by apply not_elem_of_empty in H.
  - exists new. split; [exact Htr|]. intros c b Hcb.
    destruct (He c b Hcb) as [note Hnote].
    split; [by apply (configured_channel v self note)|].
    exists note. unfold channelOf in *. by rewrite Hm.
Qed.

Lemma active_notes_stay_mapped_witness :
  tracked (run [ Note_on 60 64; Callback ([0x90; 21; 100], 0);
                 Arrive [([0x80; 60; 0], 3); ([0x90], 4)]; Poll; Note_off 21 ]
               (fresh Pygame)).
Proof.
  assert (configured Pygame (fresh Pygame)) as Hconf
    by (split; vm_compute; reflexivity).
  assert (active_notes (fresh Pygame) = ∅) as Hempty
    by (vm_compute; reflexivity).
  exact (proj1 (proj2 (proj2
           (active_notes_stay_mapped Pygame (fresh Pygame)
              [ Note_on 60 64; Callback ([0x90; 21; 100], 0);
                Arrive [([0x80; 60; 0], 3); ([0x90], 4)]; Poll; Note_off 21 ]
              Hconf Hempty)))).
Defined.

(** * Further properties of the code *)

(** ** The table, for any list of ranges *)

Lemma last_range_from_latest (ranges : list (Z * Z)) (i0 : Z) (j : nat)
    (r : Z * Z) (note : Z) :
  ranges !! j = Some r → in_range r note →
  ∃ c, last_range_from i0 ranges note = Some c ∧ i0 + Z.of_nat j ≤ c.
Proof.
  revert i0 j. induction ranges as [|[lo hi] ranges IH]; intros i0 j Hj Hin.
  - done.
  - cbn [last_range_from]. destruct j as [|j]; simpl in Hj.
    + injection Hj as <-.
      destruct (last_range_from (i0 + 1) ranges note) as [c|] eqn:E.
      * exists c. split; [done|]. apply last_range_from_bounds in E. lia.
      * exists i0. rewrite bool_decide_eq_true_2 by exact Hin. split; [done | lia].
    + destruct (IH (i0 + 1) j Hj Hin) as (c & -> & Hc).
      exists c. split; [done | lia].
Qed.

(** X1.  The keys of the table that the loops of [setup_note_mapping] build from
    any list of ranges are exactly the notes that lie in some range (a range
    whose end is below its start holds none); the value of a key is an index
    into the list, that of a range which contains the key. *)
Theorem table_keys_are_the_ranges (ranges : list (Z * Z)) (note : Z) :
  (is_Some (load_ranges ranges !! note)
   ↔ ∃ r, r ∈ ranges ∧ r.1 ≤ note ≤ r.2)
  ∧ ∀ c, load_ranges ranges !! note = Some c →
         0 ≤ c < Z.of_nat (length ranges)
         ∧ ∃ r, ranges !! Z.to_nat c = Some r ∧ r.1 ≤ note ≤ r.2.
Proof.
  rewrite load_ranges_lookup. split; [split|].
  - intros [c Hc]. apply last_range_from_in in Hc as (r & Hr & Hin).
    exists r. split; [by eapply list_elem_of_lookup_2 | exact Hin].
  - intros (r & Hr & Hin).
    destruct (last_range_from 0 ranges note) eqn:E; [by eexists|].
    exfalso. by apply (proj1 (last_range_from_none _ _ _) E r).
  - intros c Hc. split.
    + apply last_range_from_bounds in Hc. lia.
    + apply last_range_from_in in Hc. by rewrite Z.sub_0_r in Hc.
Qed.

Lemma table_keys_are_the_ranges_witness :
  0 ≤ 8 < Z.of_nat (length nine_ranges)
  ∧ ∃ r, nine_ranges !! Z.to_nat 8 = Some r ∧ r.1 ≤ 110 ≤ r.2.
Proof.
  apply (proj2 (table_keys_are_the_ranges nine_ranges 110) 8).
  vm_compute. reflexivity.
Defined.

(** X2.  Where ranges overlap the later one wins: a note that lies in the range
    of index [i] and in no range after it is mapped to relay [i]. *)
Theorem table_last_range_wins
    (ranges : list (Z * Z)) (i : nat) (r : Z * Z) (note : Z) :
  ranges !! i = Some r →
  r.1 ≤ note ≤ r.2 →
  (∀ (j : nat) rj, (i < j)%nat → ranges !! j = Some rj → ¬ rj.1 ≤ note ≤ rj.2) →
  load_ranges ranges !! note = Some (Z.of_nat i).
Proof.
  intros Hi Hin Hlater. rewrite load_ranges_lookup.
  destruct (last_range_from_latest ranges 0 i r note Hi Hin) as (c & Hc & Hle).
  rewrite Hc. f_equal.
  pose proof (last_range_from_bounds _ _ _ _ Hc) as Hb.
  apply last_range_from_in in Hc as (rc & Hrc & Hinc).
  rewrite Z.sub_0_r in Hrc.
  destruct (decide (i < Z.to_nat c)%nat) as [Hlt|Hge]; [|lia].
  exfalso. by apply (Hlater (Z.to_nat c) rc Hlt Hrc).
Qed.

Lemma table_last_range_wins_witness :
  load_ranges overlapping_ranges !! 36 = Some (Z.of_nat 1).
Proof.
  apply (table_last_range_wins overlapping_ranges 1 (35, 47) 36).
  - reflexivity.
  - simpl. lia.
  - intros j rj Hj Hrj.
    do 2 (destruct j as [|j]; [lia|]).
    repeat (destruct j as [|j]; [injection Hrj as <-; simpl; lia|]).
    discriminate Hrj.
Defined.

(** ** Relay output *)

Lemma set_relay_out_of_range (relay_channel : Z) (state : bool)
    (self : controller) :
  ¬ 0 ≤ relay_channel < Z.of_nat (length (relay_pins self)) →
  set_relay relay_channel state self = self.
Proof.
  intros H. unfold set_relay. by rewrite bool_decide_eq_false_2.
Qed.

Lemma set_relay_writes_active_low_aux (v : variant) (self : controller)
    (c : Z) (state : bool) :
  configured v self →
  0 ≤ c ≤ 7 →
  set_relay c state self
  = perform (Relay c state (18 + c) (if state then LOW else HIGH)) self.
Proof.
  intros [Hpins _] Hc. unfold set_relay. rewrite Hpins.
  rewrite bool_decide_eq_true_2 by (simpl; lia).
  assert (c = 0 ∨ c = 1 ∨ c = 2 ∨ c = 3 ∨ c = 4 ∨ c = 5 ∨ c = 6 ∨ c = 7)
    as Hcases by lia.
  destruct Hcases as [->|[->|[->|[->|[->|[->|[->| ->]]]]]]]; reflexivity.
Qed.

(** X3.  On a configured controller [set_relay] for a channel [c] of 0..7 makes
    one write, to pin [18 + c], and the relays are active-low: the level is
    [LOW] to switch on and [HIGH] to switch off.  Nothing but the trace
    changes; in particular [active_notes] is not consulted or changed. *)
Theorem set_relay_writes_active_low (v : variant) (self : controller)
    (c : Z) (state : bool) :
  configured v self →
  0 ≤ c ≤ 7 →
  set_relay c state self
  = perform (Relay c state (18 + c) (if state then LOW else HIGH)) self
  ∧ last_level (trace (set_relay c state self)) (18 + c)
    = Some (if state then LOW else HIGH).
Proof.
  intros Hconf Hc. rewrite (set_relay_writes_active_low_aux v self c state Hconf Hc).
  split; [done|]. unfold last_level. rewrite trace_perform, omap_app.
  cbn [omap list_omap level_written]. rewrite bool_decide_eq_true_2 by done.
  cbn. apply last_snoc.
Qed.

Lemma set_relay_writes_active_low_witness :
  set_relay 3 true (fresh Rtmidi)
  = perform (Relay 3 true (18 + 3) LOW) (fresh Rtmidi)
  ∧ last_level (trace (set_relay 3 true (fresh Rtmidi))) (18 + 3) = Some LOW.
Proof.
  apply (set_relay_writes_active_low Rtmidi (fresh Rtmidi) 3 true).
  - split; vm_compute; reflexivity.
  - lia.
Defined.

Lemma setup_gpio_loop_trace (pins : list Z) (self : controller) :
  trace (foldl (λ s pin, perform (GPIO_init pin) s) self pins)
  = trace self ++ (GPIO_init <$> pins).
Proof.
  revert self. induction pins as [|pin pins IH]; intros self.
  - simpl. by rewrite app_nil_r.
  - cbn [foldl fmap list_fmap]. by rewrite IH, trace_perform, <- app_assoc.
Qed.

(** X4.  [setup_gpio] initialises every pin of [relay_pins] once, in list order,
    and changes nothing but the trace; it switches no relay. *)
Theorem setup_gpio_initialises_each_pin (self : controller) :
  trace (setup_gpio self) = trace self ++ (GPIO_init <$> relay_pins self)
  ∧ emissions (trace (setup_gpio self)) = emissions (trace self)
  ∧ relay_pins (setup_gpio self) = relay_pins self
  ∧ note_to_relay (setup_gpio self) = note_to_relay self
  ∧ active_notes (setup_gpio self) = active_notes self.
Proof.
  destruct (setup_gpio_fields self) as (Hm & Ha & Hp & He).
  split; [apply setup_gpio_loop_trace | done].
Qed.

(** ** Note tracking *)

Lemma set_relay_fields (c : Z) (b : bool) (self : controller) :
  running (set_relay c b self) = running self
  ∧ ∃ new, trace (set_relay c b self) = trace self ++ new
           ∧ (length new ≤ 1)%nat.
Proof.
  unfold set_relay. case_bool_decide.
  - destruct (relay_pins self !! Z.to_nat c).
    + split; [done|]. eexists. split; [reflexivity | simpl; lia].
    + split; [done|]. exists []. split; [by rewrite app_nil_r | simpl; lia].
  - split; [done|]. exists []. split; [by rewrite app_nil_r | simpl; lia].
Qed.

(** X5.  A note whose relay number is no index of [relay_pins] (as the notes of
    a ninth range are) is tracked all the same, but lights nothing: striking
    it puts it into [active_notes] and makes no write. *)
Theorem unwired_channel_is_tracked_silently
    (self : controller) (note velocity c : Z) :
  channelOf self note = Some c →
  ¬ 0 ≤ c < Z.of_nat (length (relay_pins self)) →
  velocity > 0 →
  handle_note_on note velocity self
  = with_active_notes ({[note]} ∪ active_notes self) self.
Proof.
  intros Hc Hout Hv. rewrite (handle_note_on_mapped _ _ _ _ Hc Hv).
  by apply set_relay_out_of_range.
Qed.

Lemma unwired_channel_is_tracked_silently_witness :
  let self := state_of (construct nine_ranges Pygame (Some [])) in
  handle_note_on 110 64 self = with_active_notes ({[110]} ∪ active_notes self) self.
Proof.
  apply (unwired_channel_is_tracked_silently
           (state_of (construct nine_ranges Pygame (Some []))) 110 64 8).
  - vm_compute. reflexivity.
  - vm_compute. intros [_ H]. discriminate H.
  - lia.
Defined.

(** X6.  Releasing a note twice is releasing it once, in every state. *)
Theorem handle_note_off_idempotent (note : Z) (self : controller) :
  handle_note_off note (handle_note_off note self) = handle_note_off note self.
Proof.
  destruct (channelOf self note) as [c|] eqn:Hc;
    [destruct (decide (note ∈ active_notes self)) as [Hin|Hin]|].
  - rewrite (handle_note_off_held _ _ _ Hc Hin).
    apply handle_note_off_skip. right.
    rewrite set_relay_active_notes. simpl.
    rewrite elem_of_difference, elem_of_singleton. tauto.
  - by rewrite !(handle_note_off_skip self note) by (by right).
  - by rewrite !(handle_note_off_skip self note) by (by left).
Qed.

Lemma handle_note_on_active_notes (note velocity : Z) (self : controller) :
  active_notes (handle_note_on note velocity self) = active_notes self
  ∨ active_notes (handle_note_on note velocity self)
    = {[note]} ∪ active_notes self.
Proof.
  destruct (channelOf self note) as [c|] eqn:Hc;
    [destruct (decide (velocity > 0)) as [Hv|Hv]|].
  - right. rewrite (handle_note_on_mapped _ _ _ _ Hc Hv).
    by rewrite set_relay_active_notes.
  - left. by rewrite handle_note_on_skip by (by right).
  - left. by rewrite handle_note_on_skip by (by left).
Qed.

Lemma handle_note_off_active_notes (note : Z) (self : controller) :
  active_notes (handle_note_off note self) = active_notes self
  ∨ active_notes (handle_note_off note self) = active_notes self ∖ {[note]}.
Proof.
  destruct (channelOf self note) as [c|] eqn:Hc;
    [destruct (decide (note ∈ active_notes self)) as [Hin|Hin]|].
  - right. rewrite (handle_note_off_held _ _ _ Hc Hin).
    by rewrite set_relay_active_notes.
  - left. by rewrite handle_note_off_skip by (by right).
  - left. by rewrite handle_note_off_skip by (by left).
Qed.

Lemma dispatch_active_notes (status note velocity : Z) (self : controller) :
  active_notes (dispatch status note velocity self) = active_notes self
  ∨ active_notes (dispatch status note velocity self)
    = {[note]} ∪ active_notes self
  ∨ active_notes (dispatch status note velocity self)
    = active_notes self ∖ {[note]}.
Proof.
  unfold dispatch. repeat case_bool_decide; try (by left).
  - destruct (handle_note_off_active_notes note self); auto.
  - destruct (handle_note_off_active_notes note self); auto.
  - destruct (handle_note_on_active_notes note velocity self); auto.
Qed.

(** X7.  A message about one note leaves every other note as it was: whatever the
    status byte and the velocity, a note other than the one named is held
    afterwards exactly when it was held before, in both intake paths. *)
Theorem other_notes_are_untouched
    (status note velocity : Z) (more : list Z) (t other : Z) (self : controller) :
  other ≠ note →
  (other ∈ active_notes (midi_callback (status :: note :: velocity :: more, t) self)
   ↔ other ∈ active_notes self)
  ∧ (other ∈ active_notes
       (state_of (process_event (status :: note :: velocity :: more, t) self))
     ↔ other ∈ active_notes self).
Proof.
  intros Hne. rewrite process_event_full, midi_callback_full. cbn [state_of].
  assert (other ∈ active_notes (dispatch status note velocity self)
          ↔ other ∈ active_notes self) as H; [|done].
  destruct (dispatch_active_notes status note velocity self) as [->|[-> | ->]].
  - done.
  - rewrite elem_of_union, elem_of_singleton. tauto.
  - rewrite elem_of_difference, elem_of_singleton. tauto.
Qed.

Lemma other_notes_are_untouched_witness :
  (34 ∈ active_notes (midi_callback ([0x80; 21; 0], 0) holding_21_34)
   ↔ 34 ∈ active_notes holding_21_34)
  ∧ (34 ∈ active_notes (state_of (process_event ([0x80; 21; 0], 0) holding_21_34))
     ↔ 34 ∈ active_notes holding_21_34).
Proof.
  apply (other_notes_are_untouched 0x80 21 0 [] 0 34 holding_21_34). lia.
Defined.

(** X8.  Press and release.  On a configured controller, striking a mapped note
    of channel [c] and then releasing it writes the relay of [c] on and then
    off, and leaves the note not held; when the note was not held before,
    [active_notes] is back to what it was. *)
Theorem press_then_release
    (v : variant) (self : controller) (note velocity c : Z) :
  configured v self →
  channelOf self note = Some c →
  velocity > 0 →
  let self' := handle_note_off note (handle_note_on note velocity self) in
  trace self'
  = trace self ++ [Relay c true (18 + c) LOW; Relay c false (18 + c) HIGH]
  ∧ emissions (trace self') = emissions (trace self) ++ [(c, true); (c, false)]
  ∧ active_notes self' = active_notes self ∖ {[note]}
  ∧ (note ∉ active_notes self → active_notes self' = active_notes self).
Proof.
  intros Hconf Hc Hv self'. subst self'.
  destruct (configured_channel _ _ _ _ Hconf Hc) as [Hrange _].
  rewrite (handle_note_on_mapped _ _ _ _ Hc Hv).
  set (s1 := with_active_notes ({[note]} ∪ active_notes self) self).
  assert (configured v s1) as Hconf1 by (by apply configured_with_active_notes).
  rewrite (set_relay_writes_active_low_aux v s1 c true Hconf1 Hrange).
  set (s2 := perform _ s1).
  assert (channelOf s2 note = Some c) as Hc2 by exact Hc.
  assert (note ∈ active_notes s2) as Hin2.
  { simpl. apply elem_of_union_l. by apply elem_of_singleton. }
  rewrite (handle_note_off_held _ _ _ Hc2 Hin2).
  set (s3 := with_active_notes (active_notes s2 ∖ {[note]}) s2).
  assert (configured v s3) as Hconf3.
  { apply configured_with_active_notes. by apply configured_perform. }
  rewrite (set_relay_writes_active_low_aux v s3 c false Hconf3 Hrange).
  assert (({[note]} ∪ active_notes self) ∖ {[note]} = active_notes self ∖ {[note]})
    as Hset.
  { apply set_eq. intros x.
    rewrite !elem_of_difference, elem_of_union, !elem_of_singleton. tauto. }
  simpl. rewrite Hset. repeat split.
  - by rewrite <- app_assoc.
  - by rewrite !emissions_app, <- app_assoc.
  - intros Hnin. apply set_eq. intros x.
    rewrite elem_of_difference, elem_of_singleton.
    split; [tauto|]. intros Hx. split; [done|]. by intros ->.
Qed.

Lemma press_then_release_witness :
  active_notes (handle_note_off 60 (handle_note_on 60 64 holding_21_34))
  = active_notes holding_21_34
  ∧ emissions (trace (handle_note_off 60 (handle_note_on 60 64 holding_21_34)))
    = emissions (trace holding_21_34) ++ [(3, true); (3, false)].
Proof.
  assert (configured Pygame holding_21_34) as Hconf
    by (split; vm_compute; reflexivity).
  assert (channelOf holding_21_34 60 = Some 3) as Hc
    by (vm_compute; reflexivity).
  assert (64 > 0) as Hv by lia.
  assert (60 ∉ active_notes holding_21_34) as Hnin
    by (apply (bool_decide_unpack _); vm_compute; exact I).
  destruct (press_then_release Pygame holding_21_34 60 64 3 Hconf Hc Hv)
    as (_ & He & _ & Hback).
  split; [exact (Hback Hnin) | exact He].
Defined.

(** ** Message intake *)

Lemma dispatch_step (status note velocity : Z) (self : controller) :
  let self' := dispatch status note velocity self in
  (∃ new, trace self' = trace self ++ new ∧ (length new ≤ 1)%nat)
  ∧ midi_input self' = midi_input self
  ∧ running self' = running self
  ∧ relay_pins self' = relay_pins self
  ∧ note_to_relay self' = note_to_relay self.
Proof.
  assert (∀ c b s,
    (∃ new, trace (set_relay c b (with_active_notes s self)) = trace self ++ new
            ∧ (length new ≤ 1)%nat)
    ∧ midi_input (set_relay c b (with_active_notes s self)) = midi_input self
    ∧ running (set_relay c b (with_active_notes s self)) = running self
    ∧ relay_pins (set_relay c b (with_active_notes s self)) = relay_pins self
    ∧ note_to_relay (set_relay c b (with_active_notes s self))
      = note_to_relay self) as Hset.
  { intros c b s.
    rewrite set_relay_midi_input, set_relay_relay_pins, set_relay_note_to_relay.
    destruct (set_relay_fields c b (with_active_notes s self)) as (-> & Hnew).
    done. }
  assert ((∃ new, trace self = trace self ++ new ∧ (length new ≤ 1)%nat)
          ∧ midi_input self = midi_input self
          ∧ running self = running self
          ∧ relay_pins self = relay_pins self
          ∧ note_to_relay self = note_to_relay self) as Hid.
  { split; [|done]. exists []. split; [by rewrite app_nil_r | simpl; lia]. }
  unfold dispatch, handle_note_on, handle_note_off. cbv zeta.
  repeat case_bool_decide; simpl; try exact Hid;
    destruct (note_to_relay self !! note); simpl; try exact Hid;
    repeat case_bool_decide; simpl; try exact Hid; apply Hset.
Qed.

Lemma process_event_step (event : midi_event) (self : controller) :
  let self' := state_of (process_event event self) in
  (∃ new, trace self' = trace self ++ new ∧ (length new ≤ 1)%nat)
  ∧ midi_input self' = midi_input self
  ∧ running self' = running self
  ∧ relay_pins self' = relay_pins self
  ∧ note_to_relay self' = note_to_relay self.
Proof.
  assert ((∃ new, trace self = trace self ++ new ∧ (length new ≤ 1)%nat)
          ∧ midi_input self = midi_input self
          ∧ running self = running self
          ∧ relay_pins self = relay_pins self
          ∧ note_to_relay self = note_to_relay self) as Hid.
  { split; [|done]. exists []. split; [by rewrite app_nil_r | simpl; lia]. }
  unfold process_event.
  destruct (event.1 !! 0%nat); [|exact Hid].
  destruct (event.1 !! 1%nat); [|exact Hid].
  apply dispatch_step.
Qed.

Lemma midi_callback_step (event : midi_event) (self : controller) :
  let self' := midi_callback event self in
  (∃ new, trace self' = trace self ++ new ∧ (length new ≤ 1)%nat)
  ∧ midi_input self' = midi_input self
  ∧ running self' = running self
  ∧ relay_pins self' = relay_pins self
  ∧ note_to_relay self' = note_to_relay self.
Proof.
  assert ((∃ new, trace self = trace self ++ new ∧ (length new ≤ 1)%nat)
          ∧ midi_input self = midi_input self
          ∧ running self = running self
          ∧ relay_pins self = relay_pins self
          ∧ note_to_relay self = note_to_relay self) as Hid.
  { split; [|done]. exists []. split; [by rewrite app_nil_r | simpl; lia]. }
  unfold midi_callback. case_bool_decide; [|exact Hid].
  destruct (event.1 !! 0%nat), (event.1 !! 1%nat), (event.1 !! 2%nat);
    try exact Hid. apply dispatch_step.
Qed.

(** X9.  One message, at most one relay write.  Whatever the message (any bytes,
    any length), either intake path adds at most one effect to the trace and
    changes nothing else but [active_notes]: not the device buffer, not
    [running], not the pins, not the table. *)
Theorem one_message_at_most_one_write (event : midi_event) (self : controller) :
  ((∃ new, trace (midi_callback event self) = trace self ++ new
           ∧ (length new ≤ 1)%nat)
   ∧ midi_input (midi_callback event self) = midi_input self
   ∧ running (midi_callback event self) = running self
   ∧ relay_pins (midi_callback event self) = relay_pins self
   ∧ note_to_relay (midi_callback event self) = note_to_relay self)
  ∧ ((∃ new, trace (state_of (process_event event self)) = trace self ++ new
             ∧ (length new ≤ 1)%nat)
     ∧ midi_input (state_of (process_event event self)) = midi_input self
     ∧ running (state_of (process_event event self)) = running self
     ∧ relay_pins (state_of (process_event event self)) = relay_pins self
     ∧ note_to_relay (state_of (process_event event self)) = note_to_relay self).
Proof.
  split; [apply midi_callback_step | apply process_event_step].
Qed.

Lemma handle_note_on_any_velocity (note velocity velocity' : Z) (self : controller) :
  velocity > 0 → velocity' > 0 →
  handle_note_on note velocity self = handle_note_on note velocity' self.
Proof.
  intros Hv Hv'. destruct (channelOf self note) as [c|] eqn:Hc.
  - by rewrite (handle_note_on_mapped _ _ _ _ Hc Hv),
               (handle_note_on_mapped _ _ _ _ Hc Hv').
  - by rewrite !(handle_note_on_skip self note) by (by left).
Qed.

(** X10.  What a message is read for.  Two Note-Off messages for the same note, or
    two Note-On messages for the same note with positive velocities, are
    processed alike in both intake paths, whatever their MIDI channel (the
    low half of the status byte), their velocities, the bytes after the
    third and their time stamps. *)
Theorem only_kind_and_note_matter
    (status status' note velocity velocity' : Z) (more more' : list Z)
    (t t' : Z) (self : controller) :
  (0x80 ≤ status ≤ 0x8F ∧ 0x80 ≤ status' ≤ 0x8F)
  ∨ (0x90 ≤ status ≤ 0x9F ∧ 0x90 ≤ status' ≤ 0x9F
     ∧ velocity > 0 ∧ velocity' > 0) →
  midi_callback (status :: note :: velocity :: more, t) self
  = midi_callback (status' :: note :: velocity' :: more', t') self
  ∧ process_event (status :: note :: velocity :: more, t) self
    = process_event (status' :: note :: velocity' :: more', t') self.
Proof.
  intros H. rewrite !process_event_full, !midi_callback_full.
  assert (dispatch status note velocity self = dispatch status' note velocity' self)
    as ->; [|done].
  destruct H as [[H1 H2]|(H1 & H2 & Hv & Hv')].
  - by rewrite !dispatch_note_off.
  - unfold dispatch.
    rewrite (bool_decide_eq_false_2 (128 ≤ status ≤ 143)) by lia.
    rewrite (bool_decide_eq_false_2 (128 ≤ status' ≤ 143)) by lia.
    rewrite (bool_decide_eq_true_2 (144 ≤ status ≤ 159)) by done.
    rewrite (bool_decide_eq_true_2 (144 ≤ status' ≤ 159)) by done.
    rewrite (bool_decide_eq_false_2 (velocity = 0)) by lia.
    rewrite (bool_decide_eq_false_2 (velocity' = 0)) by lia.
    by apply handle_note_on_any_velocity.
Qed.

Lemma only_kind_and_note_matter_witness :
  midi_callback ([0x93; 60; 1; 7; 7], 12) (fresh Rtmidi)
  = midi_callback ([0x9F; 60; 127], 0) (fresh Rtmidi)
  ∧ process_event ([0x93; 60; 1; 7; 7], 12) (fresh Rtmidi)
    = process_event ([0x9F; 60; 127], 0) (fresh Rtmidi).
Proof.
  apply (only_kind_and_note_matter 0x93 0x9F 60 1 127 [7; 7] [] 12 0
           (fresh Rtmidi)).
  right. lia.
Defined.

Lemma for_each_event_app (events1 events2 : list midi_event) (self : controller) :
  for_each_event (events1 ++ events2) self
  = and_then (for_each_event events1 self) (for_each_event events2).
Proof.
  revert self. induction events1 as [|event events1 IH]; intros self; [done|].
  cbn [app for_each_event].
  destruct (process_event event self) as [s|e s]; cbn [and_then]; [apply IH | done].
Qed.

Lemma process_event_returns (event : midi_event) (self : controller) :
  (2 ≤ length event.1)%nat → ∃ self', process_event event self = Returns self'.
Proof.
  destruct event as [[|status [|note more]] t]; simpl; intros H; try lia.
  unfold process_event. simpl. by eexists.
Qed.

Lemma for_each_event_returns (events : list midi_event) (self : controller) :
  Forall (λ event : midi_event, (2 ≤ length event.1)%nat) events →
  ∃ self', for_each_event events self = Returns self'.
Proof.
  intros Hall. revert self.
  induction Hall as [|event events Hlen _ IH]; intros self; [by eexists|].
  cbn [for_each_event].
  destruct (process_event_returns event self Hlen) as [s ->].
  cbn [and_then]. apply IH.
Qed.

(** X11.  A message of fewer than two bytes stops the batch it is in.  The events
    before it (each of two bytes or more) are processed; at the short one
    [process_midi_events]' loop raises [IndexError], and the events behind
    it in the batch, already taken from the device, are never processed. *)
Theorem short_message_aborts_batch
    (before after : list midi_event) (data : list Z) (t : Z) (self : controller) :
  Forall (λ event : midi_event, (2 ≤ length event.1)%nat) before →
  (length data < 2)%nat →
  ∃ self', for_each_event before self = Returns self'
           ∧ for_each_event (before ++ (data, t) :: after) self
             = Raises IndexError self'.
Proof.
  intros Hall Hshort.
  destruct (for_each_event_returns before self Hall) as [self' Hret].
  exists self'. split; [exact Hret|].
  rewrite for_each_event_app, Hret. cbn [and_then for_each_event].
  by rewrite process_event_too_short.
Qed.

Lemma short_message_aborts_batch_witness :
  ∃ self', for_each_event [([0x90; 60; 64], 0)] (fresh Pygame) = Returns self'
           ∧ for_each_event ([([0x90; 60; 64], 0)]
                             ++ ([0xF8], 1) :: [([0x80; 60; 0], 2)]) (fresh Pygame)
             = Raises IndexError self'.
Proof.
  apply (short_message_aborts_batch [([0x90; 60; 64], 0)] [([0x80; 60; 0], 2)]
           [0xF8] 1 (fresh Pygame)).
  - apply Forall_cons_2; [simpl; lia | apply Forall_nil_2].
  - simpl. lia.
Defined.

(** ** Polling *)

Lemma for_each_event_step (events : list midi_event) (self : controller) :
  let self' := state_of (for_each_event events self) in
  (∃ new, trace self' = trace self ++ new ∧ (length new ≤ length events)%nat)
  ∧ midi_input self' = midi_input self
  ∧ running self' = running self.
Proof.
  revert self. induction events as [|event events IH]; intros self; cbv zeta.
  - split; [|done]. exists []. split; [by rewrite app_nil_r | simpl; lia].
  - cbn [for_each_event].
    destruct (process_event_step event self)
      as ((new1 & Htr1 & Hlen1) & Hmi1 & Hrun1 & _).
    destruct (process_event event self) as [s|e s];
      cbn [and_then state_of] in *.
    + destruct (IH s) as ((new2 & Htr2 & Hlen2) & Hmi2 & Hrun2).
      split; [|split; congruence].
      exists (new1 ++ new2). rewrite Htr2, Htr1, <- app_assoc.
      split; [done|]. rewrite length_app. simpl. lia.
    + split; [|done]. exists new1. split; [done | simpl; lia].
Qed.

(** X12.  One poll takes ten events.  A call of [process_midi_events], whether it
    returns or raises, removes the ten oldest events from the device buffer
    (all of them when there are fewer) and leaves the others buffered, in
    order; it makes at most one relay write per event taken, so at most
    ten; it does not change [running]. *)
Theorem poll_takes_ten_events (self : controller) (buffered : list midi_event) :
  midi_input self = Some buffered →
  let self' := state_of (process_midi_events self) in
  midi_input self' = Some (drop 10 buffered)
  ∧ (∃ new, trace self' = trace self ++ new
            ∧ (length new ≤ 10)%nat ∧ (length new ≤ length buffered)%nat)
  ∧ running self' = running self.
Proof.
  intros Hmi. cbv zeta. unfold process_midi_events. rewrite Hmi.
  case_bool_decide as Hemp.
  - destruct (for_each_event_step (take 10 buffered)
                (with_midi_input (Some (drop 10 buffered)) self))
      as ((new & Htr & Hlen) & Hmi' & Hrun).
    split; [exact Hmi'|]. split; [|exact Hrun].
    exists new. split; [exact Htr|].
    rewrite length_take in Hlen. lia.
  - subst buffered. cbn [state_of]. split; [exact Hmi|]. split; [|done].
    exists []. split; [by rewrite app_nil_r | simpl; lia].
Qed.

Lemma poll_takes_ten_events_witness :
  let self :=
    with_midi_input
      (Some (replicate 12 ([0x90; 60; 64], 0) ++ [([0x80; 60; 0], 1)]))
      (fresh Pygame) in
  midi_input (state_of (process_midi_events self))
  = Some (drop 10 (replicate 12 ([0x90; 60; 64], 0) ++ [([0x80; 60; 0], 1)])).
Proof.
  exact (proj1 (poll_takes_ten_events
                  (with_midi_input
                     (Some (replicate 12 ([0x90; 60; 64], 0)
                            ++ [([0x80; 60; 0], 1)]))
                     (fresh Pygame))
                  (replicate 12 ([0x90; 60; 64], 0) ++ [([0x80; 60; 0], 1)])
                  eq_refl)).
Defined.

Lemma process_midi_events_is_deliver (self : controller)
    (events : list midi_event) :
  midi_input self = Some events →
  Forall (λ event : midi_event, (3 ≤ length event.1)%nat) events →
  process_midi_events self
  = Returns (with_midi_input (Some (drop 10 events))
                             (deliver (take 10 events) self)).
Proof.
  intros Hmi Hall. unfold process_midi_events. rewrite Hmi.
  case_bool_decide as Hemp.
  - rewrite for_each_event_is_deliver by (by apply Forall_take).
    by rewrite deliver_with_midi_input.
  - subst events. destruct self. simpl in Hmi. by subst.
Qed.

Lemma deliver_app (events1 events2 : list midi_event) (self : controller) :
  deliver (events1 ++ events2) self = deliver events2 (deliver events1 self).
Proof. apply foldl_app. Qed.

(** X13.  Polling drains the buffer.  When the buffered events all have three
    bytes or more, [k] polls in a row with [10 * k] at least the number of
    events process every event, oldest first, exactly as one callback per
    event would, none of the polls raises, and the buffer ends empty. *)
Theorem polls_drain_the_buffer
    (k : nat) (self : controller) (events : list midi_event) :
  midi_input self = Some events →
  Forall (λ event : midi_event, (3 ≤ length event.1)%nat) events →
  (length events ≤ 10 * k)%nat →
  polls k self = Returns (with_midi_input (Some []) (deliver events self)).
Proof.
  revert self events. induction k as [|k IH]; intros self events Hmi Hall Hlen.
  - destruct events; [|simpl in Hlen; lia].
    destruct self. simpl in Hmi. by subst.
  - cbn [polls]. rewrite (process_midi_events_is_deliver _ _ Hmi Hall).
    cbn [and_then].
    rewrite (IH _ (drop 10 events)); [| done | by apply Forall_drop |
                                      rewrite length_drop; lia].
    rewrite deliver_with_midi_input, <- deliver_app, take_drop. done.
Qed.

Lemma polls_drain_the_buffer_witness :
  let events := replicate 12 ([0x90; 60; 64], 0) ++ [([0x80; 60; 0], 1)] in
  polls 2 (with_midi_input (Some events) (fresh Pygame))
  = Returns (with_midi_input (Some [])
               (deliver events (with_midi_input (Some events) (fresh Pygame)))).
Proof.
  apply (polls_drain_the_buffer 2
           (with_midi_input
              (Some (replicate 12 ([0x90; 60; 64], 0) ++ [([0x80; 60; 0], 1)]))
              (fresh Pygame))
           (replicate 12 ([0x90; 60; 64], 0) ++ [([0x80; 60; 0], 1)])).
  - reflexivity.
  - apply Forall_app_2; [apply Forall_replicate | apply Forall_cons_2;
      [|apply Forall_nil_2]]; simpl; lia.
  - simpl. lia.
Defined.

(** ** The main loop *)

Lemma advances_with_running (b : bool) (self : controller) :
  advances self (with_running b self).
Proof.
  repeat split; try done. exists []. split; [by rewrite app_nil_r|].
  intros c b' H. by apply elem_of_nil in H.
Qed.

Lemma poll_loop_advances (schedule : list (list midi_event)) (self : controller) :
  advances self (poll_loop schedule self).2.
Proof.
  revert self. induction schedule as [|arrivals rest IH]; intros self;
    cbn [poll_loop].
  - destruct (running self); apply advances_refl.
  - destruct (running self); [|apply advances_refl].
    pose proof (advances_run_operation self (Arrive arrivals)) as H1.
    pose proof (advances_process_midi_events
                  (run_operation self (Arrive arrivals))) as H2.
    destruct (process_midi_events (run_operation self (Arrive arrivals)))
      as [s|e s]; cbn [state_of snd] in *.
    + eapply advances_trans; [|apply IH]. exact (advances_trans _ _ _ H1 H2).
    + exact (advances_trans _ _ _ H1 H2).
Qed.

Lemma omap_level_written_none (pin : Z) (tr : list effect) :
  Forall (λ e, level_written pin e = None) tr →
  omap (level_written pin) tr = [].
Proof.
  induction 1 as [|e tr He _ IH]; [done|]. cbn [omap list_omap].
  by rewrite He, IH.
Qed.

Lemma last_level_after_offs (tr rest : list effect) (pin : Z) :
  18 ≤ pin ≤ 25 →
  Forall (λ e, level_written pin e = None) rest →
  last_level
    (tr ++ [ Relay 0 false 18 HIGH; Relay 1 false 19 HIGH; Relay 2 false 20 HIGH;
             Relay 3 false 21 HIGH; Relay 4 false 22 HIGH; Relay 5 false 23 HIGH;
             Relay 6 false 24 HIGH; Relay 7 false 25 HIGH ] ++ rest) pin
  = Some HIGH.
Proof.
  intros Hpin Hrest. unfold last_level.
  rewrite !omap_app, (omap_level_written_none _ _ Hrest), app_nil_r.
  assert (pin = 18 ∨ pin = 19 ∨ pin = 20 ∨ pin = 21 ∨ pin = 22 ∨ pin = 23
          ∨ pin = 24 ∨ pin = 25) as Hcases by lia.
  assert (omap (level_written pin)
            [ Relay 0 false 18 HIGH; Relay 1 false 19 HIGH; Relay 2 false 20 HIGH;
              Relay 3 false 21 HIGH; Relay 4 false 22 HIGH; Relay 5 false 23 HIGH;
              Relay 6 false 24 HIGH; Relay 7 false 25 HIGH ] = [HIGH]) as ->.
  { destruct Hcases as [->|[->|[->|[->|[->|[->|[->| ->]]]]]]];
      vm_compute; reflexivity. }
  apply last_snoc.
Qed.

Lemma controller_run_trace (schedule : list (list midi_event)) (self : controller) :
  configured Pygame self →
  ∃ new closing,
    trace (state_of (controller_run schedule self))
    = (trace self ++ new)
      ++ [ Relay 0 false 18 HIGH; Relay 1 false 19 HIGH; Relay 2 false 20 HIGH;
           Relay 3 false 21 HIGH; Relay 4 false 22 HIGH; Relay 5 false 23 HIGH;
           Relay 6 false 24 HIGH; Relay 7 false 25 HIGH ]
      ++ closing
    ∧ Forall (λ e, e = GPIO_cleanup ∨ e = MIDI_close ∨ e = MIDI_quit) closing
    ∧ running (state_of (controller_run schedule self)) = false.
Proof.
  intros Hconf. unfold controller_run.
  pose proof (poll_loop_advances schedule (with_running true self)) as Hadv.
  destruct (poll_loop schedule (with_running true self)) as [how s].
  cbn [snd] in Hadv.
  destruct Hadv as (Hm & Hp & _ & new & Htr & _).
  assert (configured Pygame s) as Hconf'.
  { destruct Hconf as [Hpins Hmap]. split; simpl in *; congruence. }
  assert (state_of (match how with
                    | Failed e => Raises e (cleanup Pygame s)
                    | _ => Returns (cleanup Pygame s)
                    end) = cleanup Pygame s) as -> by (by destruct how).
  rewrite (cleanup_trace Pygame s Hconf'), cleanup_running, Htr.
  exists new. eexists. split; [reflexivity|]. split; [|done].
  destruct (midi_input s); simpl; repeat apply Forall_cons_2; auto.
Qed.

Lemma closing_writes_nothing (pin : Z) (closing : list effect) :
  Forall (λ e, e = GPIO_cleanup ∨ e = MIDI_close ∨ e = MIDI_quit) closing →
  Forall (λ e, level_written pin e = None) closing.
Proof.
  intros H. eapply Forall_impl; [exact H|]. by intros e [->|[->| ->]].
Qed.

(** X14.  [run] ends with every relay off.  On a configured controller, however
    many turns the loop makes, whatever events arrive, and also when a poll
    raises, [run] finishes through [cleanup]: the last channel emissions are
    the eight "off" writes, the level last written to each of the pins
    18..25 is [HIGH] (off, the boards being active-low), and [running] is
    false. *)
Theorem run_ends_with_every_relay_off
    (schedule : list (list midi_event)) (self : controller) :
  configured Pygame self →
  let self' := state_of (controller_run schedule self) in
  (∀ pin, 18 ≤ pin ≤ 25 → last_level (trace self') pin = Some HIGH)
  ∧ (∃ earlier,
       emissions (trace self')
       = earlier ++ [ (0, false); (1, false); (2, false); (3, false);
                      (4, false); (5, false); (6, false); (7, false) ])
  ∧ running self' = false.
Proof.
  intros Hconf. cbv zeta.
  destruct (controller_run_trace schedule self Hconf)
    as (new & closing & -> & Hclosing & ->).
  split; [|split; [|done]].
  - intros pin Hpin. apply last_level_after_offs; [done|].
    by apply closing_writes_nothing.
  - eexists. rewrite !emissions_app.
    assert (emissions closing = []) as ->.
    { clear -Hclosing. induction Hclosing as [|e l [->|[->| ->]] _ IH]; done. }
    by rewrite app_nil_r.
Qed.

Lemma run_ends_with_every_relay_off_witness :
  last_level
    (trace (state_of (controller_run
                        [ [([0x90; 60; 64], 0)]; [([0xF8], 1)]; [] ]
                        (fresh Pygame)))) 21
  = Some HIGH.
Proof.
  assert (configured Pygame (fresh Pygame)) as Hconf
    by (split; vm_compute; reflexivity).
  assert (18 ≤ 21 ≤ 25) as Hpin by lia.
  exact (proj1 (run_ends_with_every_relay_off
                  [ [([0x90; 60; 64], 0)]; [([0xF8], 1)]; [] ]
                  (fresh Pygame) Hconf) 21 Hpin).
Defined.

Lemma construct_trace (ranges : list (Z * Z)) (v : variant)
    (found : option (list midi_event)) :
  trace (state_of (construct ranges v found))
  = GPIO_init <$> [18; 19; 20; 21; 22; 23; 24; 25].
Proof.
  unfold construct. set (self0 := with_running _ _).
  assert (trace (setup_gpio self0)
          = GPIO_init <$> [18; 19; 20; 21; 22; 23; 24; 25]) as Htr.
  { unfold setup_gpio. by rewrite setup_gpio_loop_trace. }
  by destruct v, found.
Qed.

Lemma construct_no_device (ranges : list (Z * Z)) (v : variant) :
  raised (construct ranges v None) = Some NoMidiInput
  ∧ active_notes (state_of (construct ranges v None)) = ∅.
Proof.
  unfold construct. set (self0 := with_running _ _).
  destruct (setup_gpio_fields self0) as (_ & Ha & _).
  set (self1 := setup_gpio self0) in *. clearbody self1.
  subst self0. simpl in Ha. by destruct v.
Qed.

Lemma main_no_device_trace (schedule : list (list midi_event)) :
  trace (main None schedule)
  = (GPIO_init <$> [18; 19; 20; 21; 22; 23; 24; 25]) ++ [GPIO_cleanup; MIDI_quit].
Proof.
  unfold main, __init__.
  pose proof (construct_trace (octave_ranges Pygame) Pygame None) as Htr.
  assert (raised (construct (octave_ranges Pygame) Pygame None)
          = Some NoMidiInput) as Hr by reflexivity.
  destruct (construct (octave_ranges Pygame) Pygame None) as [s|e s];
    [discriminate Hr|].
  cbn [state_of] in Htr. by rewrite !trace_perform, Htr, <- app_assoc.
Qed.

(** X15.  [main] never leaves a relay on.  However the program ends (no input
    device at start, Ctrl+C, or an exception of a poll), the level last
    written to each of the pins 18..25 is [HIGH]: off. *)
Theorem main_leaves_every_relay_off
    (found : option (list midi_event)) (schedule : list (list midi_event))
    (pin : Z) :
  18 ≤ pin ≤ 25 →
  last_level (trace (main found schedule)) pin = Some HIGH.
Proof.
  intros Hpin. unfold main, __init__.
  assert (pin = 18 ∨ pin = 19 ∨ pin = 20 ∨ pin = 21 ∨ pin = 22 ∨ pin = 23
          ∨ pin = 24 ∨ pin = 25) as Hcases by lia.
  destruct found as [buffered|].
  - destruct (construct_returns (octave_ranges Pygame) Pygame buffered)
      as (piano & -> & Hm & Hp & _).
    assert (configured Pygame piano) as Hconf by (by split).
    destruct (controller_run_trace schedule piano Hconf)
      as (new & closing & Htr & Hclosing & _).
    assert (∃ more,
              trace (match controller_run schedule piano with
                     | Returns self => self
                     | Raises _ self => perform MIDI_quit (perform GPIO_cleanup self)
                     end)
              = trace (state_of (controller_run schedule piano)) ++ more
              ∧ Forall (λ e, e = GPIO_cleanup ∨ e = MIDI_close ∨ e = MIDI_quit)
                       more) as (more & -> & Hmore).
    { destruct (controller_run schedule piano) as [s|e s]; cbn [state_of].
      - exists []. split; [by rewrite app_nil_r | apply Forall_nil_2].
      - exists [GPIO_cleanup; MIDI_quit]. rewrite !trace_perform, <- app_assoc.
        split; [done|]. repeat apply Forall_cons_2; auto. }
    assert (∀ a b c d : list effect, (a ++ b ++ c) ++ d = a ++ b ++ c ++ d)
      as Hassoc by (intros; by rewrite <- !app_assoc).
    rewrite Htr, Hassoc.
    apply last_level_after_offs; [done|].
    apply closing_writes_nothing, Forall_app_2; done.
  - fold (__init__ Pygame None). fold (main None schedule).
    rewrite main_no_device_trace.
    destruct Hcases as [->|[->|[->|[->|[->|[->|[->| ->]]]]]]];
      vm_compute; reflexivity.
Qed.

Lemma main_leaves_every_relay_off_witness :
  last_level (trace (main (Some [([0x90; 60; 64], 0)]) [[]; [([0xF8], 1)]])) 21
  = Some HIGH.
Proof.
  apply (main_leaves_every_relay_off
           (Some [([0x90; 60; 64], 0)]) [[]; [([0xF8], 1)]] 21).
  lia.
Defined.

(** X16.  Without an input device [main] processes nothing: the eight pins are
    initialised (to [HIGH]), the GPIO is released and the MIDI library is
    shut down; no relay is ever written and no note is tracked, whatever
    would have arrived. *)
Theorem main_without_input_device (schedule : list (list midi_event)) :
  trace (main None schedule)
  = (GPIO_init <$> [18; 19; 20; 21; 22; 23; 24; 25]) ++ [GPIO_cleanup; MIDI_quit]
  ∧ emissions (trace (main None schedule)) = []
  ∧ active_notes (main None schedule) = ∅.
Proof.
  pose proof (main_no_device_trace schedule) as Htr.
  split; [exact Htr|]. split; [by rewrite Htr|].
  unfold main, __init__.
  pose proof (construct_no_device (octave_ranges Pygame) Pygame) as [Hr Ha].
  destruct (construct (octave_ranges Pygame) Pygame None) as [s|e s];
    [discriminate Hr | exact Ha].
Qed.

(** ** Device discovery *)

Lemma first_input_from_none (i : Z) (infos : list device_info) :
  Forall (λ info, dev_input info = 0) infos → first_input_from i infos = None.
Proof.
  intros H. revert i. induction H as [|info infos H0 _ IH]; intros i; [done|].
  cbn [first_input_from]. rewrite bool_decide_eq_false_2 by (by rewrite H0; intros []).
  apply IH.
Qed.

Lemma first_input_from_first (i : Z) (outputs : list device_info)
    (info : device_info) (rest : list device_info) :
  Forall (λ info, dev_input info = 0) outputs → dev_input info ≠ 0 →
  first_input_from i (outputs ++ info :: rest)
  = Some (i + Z.of_nat (length outputs)).
Proof.
  intros H Hin. revert i. induction H as [|o outputs H0 _ IH]; intros i.
  - cbn [app first_input_from length]. rewrite bool_decide_eq_true_2 by done.
    f_equal. lia.
  - cbn [app first_input_from length].
    rewrite bool_decide_eq_false_2 by (by rewrite H0; intros []).
    rewrite IH. f_equal. lia.
Qed.

Lemma listing_fails (decodes : list Z → bool) (infos : list device_info) :
  Exists (λ info, decodes (dev_name info) = false) infos →
  forallb (λ info, decodes (dev_name info)) infos = false.
Proof.
  induction 1 as [info infos H|info infos _ IH]; cbn [forallb].
  - by rewrite H.
  - rewrite IH. apply andb_false_r.
Qed.

Lemma listing_returns (decodes : list Z → bool) (infos : list device_info) :
  Forall (λ info, decodes (dev_name info) = true) infos →
  forallb (λ info, decodes (dev_name info)) infos = true.
Proof.
  induction 1 as [|info infos H _ IH]; cbn [forallb]; [done|].
  by rewrite H, IH.
Qed.

(** X18.  [setup_midi] (pygame) opens the first input device, once it has
    listed them all.  When the name of some device does not decode, the
    listing raises before any device is looked for: nothing is opened and
    [midi_input] stays as it was, also when an input device is there.  When
    every name decodes: the first device, in their order, whose info tuple
    has a non-zero input flag is the one opened, whatever comes after it;
    and when no device has the flag (or there is no device at all) the
    method raises and [midi_input] stays as it was. *)
Theorem pygame_opens_first_input_device
    (decodes : list Z → bool)
    (devices : list (device_info * list midi_event)) (self : controller) :
  (Exists (λ d : device_info * list midi_event, decodes (dev_name d.1) = false)
          devices →
   setup_midi_pygame decodes devices self = Midi_undecodable self)
  ∧ (Forall (λ d : device_info * list midi_event, decodes (dev_name d.1) = true)
            devices →
     (Forall (λ d : device_info * list midi_event, dev_input d.1 = 0) devices →
      setup_midi_pygame decodes devices self = Midi_missing self)
     ∧ (∀ outputs info buffered rest,
          devices = outputs ++ (info, buffered) :: rest →
          Forall (λ d : device_info * list midi_event, dev_input d.1 = 0)
                 outputs →
          dev_input info ≠ 0 →
          setup_midi_pygame decodes devices self
          = Midi_ready (with_midi_input (Some buffered) self))).
Proof.
  split.
  - intros Hbad. unfold setup_midi_pygame.
    rewrite listing_fails; [done|].
    apply Exists_fmap. eapply Exists_impl; [exact Hbad | done].
  - intros Hgood.
    assert (forallb (λ info, decodes (dev_name info)) (fst <$> devices) = true)
      as Hlist.
    { apply listing_returns, Forall_fmap.
      eapply Forall_impl; [exact Hgood | done]. }
    split.
    + intros Hnone. unfold setup_midi_pygame. rewrite Hlist.
      rewrite first_input_from_none; [done|].
      apply Forall_fmap. eapply Forall_impl; [exact Hnone | done].
    + intros outputs info buffered rest Hdev Hout Hin.
      unfold setup_midi_pygame. rewrite Hlist. subst devices.
      rewrite fmap_app, fmap_cons. cbn [fst].
      rewrite first_input_from_first;
        [| apply Forall_fmap; eapply Forall_impl; [exact Hout | done] | done].
      rewrite length_fmap, Z.add_0_l, Nat2Z.id.
      rewrite lookup_app_r by lia. rewrite Nat.sub_diag. cbn [lookup list_lookup].
      apply Forall_app in Hgood as [_ Hgood].
      apply Forall_cons in Hgood as [Hinfo _]. cbn [fst] in Hinfo.
      by rewrite Hinfo.
Qed.

Lemma pygame_opens_first_input_device_witness :
  let ascii := forallb (λ b, b <? 128) in
  let out := Device_info [65] [111] 0 1 0 in
  let inp := Device_info [65] [105] 1 0 0 in
  let bad := Device_info [65] [255] 1 0 0 in
  setup_midi_pygame ascii
    [(out, []); (inp, [([0x90; 60; 64], 0)]); (inp, [])] (fresh Pygame)
  = Midi_ready (with_midi_input (Some [([0x90; 60; 64], 0)]) (fresh Pygame))
  ∧ setup_midi_pygame ascii [(out, []); (out, [])] (fresh Pygame)
    = Midi_missing (fresh Pygame)
  ∧ setup_midi_pygame ascii [(inp, []); (bad, [])] (fresh Pygame)
    = Midi_undecodable (fresh Pygame).
Proof.
  cbv zeta. split; [|split].
  - apply (proj2 (proj2 (pygame_opens_first_input_device
                           (forallb (λ b, b <? 128))
                           [ (Device_info [65] [111] 0 1 0, []);
                             (Device_info [65] [105] 1 0 0, [([0x90; 60; 64], 0)]);
                             (Device_info [65] [105] 1 0 0, []) ] (fresh Pygame))
                        ltac:(repeat (apply Forall_cons_2 || apply Forall_nil_2);
                              reflexivity))
             [(Device_info [65] [111] 0 1 0, [])]
             (Device_info [65] [105] 1 0 0) [([0x90; 60; 64], 0)]
             [(Device_info [65] [105] 1 0 0, [])]).
    + reflexivity.
    + apply Forall_cons_2; [reflexivity | apply Forall_nil_2].
    + simpl. lia.
  - apply (proj1 (proj2 (pygame_opens_first_input_device
                           (forallb (λ b, b <? 128))
                           [ (Device_info [65] [111] 0 1 0, []);
                             (Device_info [65] [111] 0 1 0, []) ] (fresh Pygame))
                        ltac:(repeat (apply Forall_cons_2 || apply Forall_nil_2);
                              reflexivity))).
    repeat (apply Forall_cons_2 || apply Forall_nil_2); reflexivity.
  - apply (proj1 (pygame_opens_first_input_device
                    (forallb (λ b, b <? 128))
                    [ (Device_info [65] [105] 1 0 0, []);
                      (Device_info [65] [255] 1 0 0, []) ] (fresh Pygame))).
    apply Exists_cons_tl, Exists_cons_hd. reflexivity.
Defined.

Lemma first_casio_from_none {port : Type} (is_casio : port → bool) (i : Z)
    (ports : list port) :
  Forall (λ p, is_casio p = false) ports → first_casio_from is_casio i ports = None.
Proof.
  intros H. revert i. induction H as [|p ports H0 _ IH]; intros i; [done|].
  cbn [first_casio_from]. rewrite H0. apply IH.
Qed.

Lemma first_casio_from_first {port : Type} (is_casio : port → bool) (i : Z)
    (others : list port) (p : port) (rest : list port) :
  Forall (λ q, is_casio q = false) others → is_casio p = true →
  first_casio_from is_casio i (others ++ p :: rest)
  = Some (i + Z.of_nat (length others)).
Proof.
  intros H Hp. revert i. induction H as [|o others H0 _ IH]; intros i.
  - cbn [app first_casio_from length]. rewrite Hp. f_equal. lia.
  - cbn [app first_casio_from length]. rewrite H0, IH. f_equal. lia.
Qed.

Lemma first_casio_from_bounds {port : Type} (is_casio : port → bool) (i c : Z)
    (ports : list port) :
  first_casio_from is_casio i ports = Some c →
  i ≤ c < i + Z.of_nat (length ports).
Proof.
  revert i. induction ports as [|p ports IH]; intros i; [done|].
  cbn [first_casio_from length]. destruct (is_casio p).
  - intros [= <-]. lia.
  - intros H. apply IH in H. lia.
Qed.

(** X19.  [setup_midi] (rtmidi) chooses its port: the first port that passes the
    Casio test, whatever ports come before or after it; port 0 when no port
    passes; an exception only when there is no port.  The port chosen is
    always one of the ports available. *)
Theorem rtmidi_prefers_casio_port {port : Type} (is_casio : port → bool)
    (available_ports : list port) :
  (select_port is_casio available_ports = None ↔ available_ports = [])
  ∧ (∀ i, select_port is_casio available_ports = Some i →
          0 ≤ i < Z.of_nat (length available_ports))
  ∧ (∀ others p rest,
       available_ports = others ++ p :: rest →
       Forall (λ q, is_casio q = false) others → is_casio p = true →
       select_port is_casio available_ports = Some (Z.of_nat (length others)))
  ∧ (available_ports ≠ [] →
     Forall (λ q, is_casio q = false) available_ports →
     select_port is_casio available_ports = Some 0).
Proof.
  split; [|split; [|split]].
  - unfold select_port. destruct available_ports as [|p ports]; [done|].
    by destruct (first_casio_from is_casio 0 (p :: ports)).
  - intros i. unfold select_port. destruct available_ports as [|p ports]; [done|].
    destruct (first_casio_from is_casio 0 (p :: ports)) as [c|] eqn:E.
    + intros [= <-]. apply first_casio_from_bounds in E. lia.
    + intros [= <-]. simpl. lia.
  - intros others p rest -> Hothers Hp. unfold select_port.
    rewrite (first_casio_from_first is_casio 0 others p rest Hothers Hp).
    rewrite Z.add_0_l. by destruct others.
  - intros Hne Hnone. unfold select_port.
    destruct available_ports as [|p ports]; [done|].
    by rewrite (first_casio_from_none is_casio 0 (p :: ports) Hnone).
Qed.

Lemma rtmidi_prefers_casio_port_witness :
  select_port (Z.eqb 7) [3; 7; 5; 7] = Some (Z.of_nat (length [3]))
  ∧ select_port (Z.eqb 7) [3; 5] = Some 0.
Proof.
  split.
  - apply (proj1 (proj2 (proj2 (rtmidi_prefers_casio_port (Z.eqb 7) [3; 7; 5; 7])))
             [3] 7 [5; 7]).
    + reflexivity.
    + apply Forall_cons_2; [reflexivity | apply Forall_nil_2].
    + reflexivity.
  - apply (proj2 (proj2 (proj2 (rtmidi_prefers_casio_port (Z.eqb 7) [3; 5])))).
    + discriminate.
    + repeat (apply Forall_cons_2 || apply Forall_nil_2); reflexivity.
Defined.
